(** * The multiplayer scene of src/client.ts

    A shallow embedding of [GameScene] (src/client.ts): the scene's own
    fields, the part of the Phaser world its methods read and write, the
    [onmessage] handler installed by [init], and the [update] tick.

    Conventions.
    - A JavaScript number is an IEEE binary64: [number] is the kernel's
      [float].  The scene never computes with coordinates, it relays them.
    - [JSON.parse], [JSON.stringify] and [uuid] are not code of the scene.
      A received message is represented by what [JSON.parse] makes of its
      text ([payload]); a sent message by the object handed to
      [JSON.stringify]; the identifier by the string [uuid()] returned.
    - Sprites are objects: they live in a store ([sprites]) and are referred
      to by their index there ([handle]).  [this.players] holds handles.
    - Every method runs in the monad [M]: it threads the scene, collects the
      calls made on the presentation layer and the socket ([effect]), and
      may end in an exception.
    - Phaser (3.16 and before, where [createDynamicLayer] and the global
      [GameConfig] exist) is modelled by what its calls do at run time. *)

From Stdlib Require Import PrimFloat.
From stdpp Require Import gmap strings list pretty.

Set Warnings "-register-all,-clear-no-such-hyp".
Local Open Scope string_scope.
Local Open Scope nat_scope.
Local Open Scope list_scope.

(** ** JavaScript values *)

Definition number := float.

Inductive value :=
| VUndefined
| VNull
| VBool (b : bool)
| VNum (n : number)
| VStr (s : string)
| VArr (elems : list value)
| VObj (props : list (string * value)).

(** What [JSON.parse(wsMsgEvent.data)] does with a message: it throws a
    [SyntaxError] on text that is not JSON, and returns a value otherwise.
    An object is given by its own properties in enumeration order. *)
Inductive payload :=
| NotJSON
| JSON (v : value).

Inductive error := SyntaxError | TypeError.

(** Own enumerable string-keyed properties, in the order [Object.keys]
    lists them: the members of an object, the indices of an array or of a
    string; a number or a boolean has none. *)
Definition own_props (v : value) : list (string * value) :=
  match v with
  | VObj props => props
  | VArr elems => imap (λ i e, (pretty i, e)) elems
  | VStr s => imap (λ i c, (pretty i, VStr (String c EmptyString)))
                   (String.list_ascii_of_string s)
  | _ => []
  end.

Fixpoint own_lookup (k : string) (props : list (string * value)) : value :=
  match props with
  | [] => VUndefined
  | (k', v) :: rest => if String.eqb k k' then v else own_lookup k rest
  end.

(** [o[k]] for a key that [o] owns or that no prototype of [o] defines
    (this is how the handler uses it: own keys, and [x], [y], [frame]). *)
Definition get_prop (o : value) (k : string) : value :=
  own_lookup k (own_props o).

(** The names every plain object inherits from [Object.prototype]:
    [k in {}] is true for each of them. *)
Definition Object_prototype : list string :=
  [ "constructor"; "__defineGetter__"; "__defineSetter__"; "hasOwnProperty";
    "__lookupGetter__"; "__lookupSetter__"; "isPrototypeOf";
    "propertyIsEnumerable"; "toString"; "valueOf"; "__proto__";
    "toLocaleString" ].

Definition inherited (k : string) : bool :=
  existsb (String.eqb k) Object_prototype.

(** ** The Phaser objects the scene touches *)

Module Frame.
(** [Phaser.Textures.Frame].  Its [name] is what the texture was given
    when the frame was added: the integer index for a frame cut from a
    sprite sheet, a string otherwise (the whole image of a texture is its
    frame ["__BASE"]). *)
Inductive name_t :=
| Index (i : number)
| Name (k : string).

Record t := { name : name_t }.

(** [frame.name] as a JavaScript value. *)
Definition name_value (f : t) : value :=
  match name f with
  | Index i => VNum i
  | Name k => VStr k
  end.
End Frame.

Module Texture.
(** [Phaser.Textures.Texture]: its key, [has(i)] for a number [i], and
    [get(frame)]. *)
Record t := { key : string; has : number → bool; get : value → Frame.t }.
End Texture.

(** What [textures.get(key)] returns for a key that is not loaded: the
    texture ["__MISSING"], whose only frame is ["__BASE"]. *)
Definition MISSING : Texture.t :=
  {| Texture.key := "__MISSING";
     Texture.has := λ _, false;
     Texture.get := λ _, {| Frame.name := Frame.Name "__BASE" |} |}.

Module Body.
(** [Phaser.Physics.Arcade.Body], its velocity. *)
Record t := { velocity_x : number; velocity_y : number }.
End Body.

Module Sprite.
(** [Phaser.GameObjects.Sprite].  [x] and [y] hold whatever value they
    were given, [undefined] apart, which the setters replace; [body] is
    [None] for a sprite made by [this.add.sprite]. *)
Record t := {
  x : value;
  y : value;
  texture : Texture.t;
  frame : Frame.t;
  body : option Body.t;
  currentAnim : option string;
  isPlaying : bool;
  active : bool }.

Definition with_x (v : value) (sp : t) : t :=
  {| x := v; y := y sp; texture := texture sp; frame := frame sp;
     body := body sp; currentAnim := currentAnim sp;
     isPlaying := isPlaying sp; active := active sp |}.
Definition with_y (v : value) (sp : t) : t :=
  {| x := x sp; y := v; texture := texture sp; frame := frame sp;
     body := body sp; currentAnim := currentAnim sp;
     isPlaying := isPlaying sp; active := active sp |}.
Definition with_frame (f : Frame.t) (sp : t) : t :=
  {| x := x sp; y := y sp; texture := texture sp; frame := f;
     body := body sp; currentAnim := currentAnim sp;
     isPlaying := isPlaying sp; active := active sp |}.
Definition with_body (b : option Body.t) (sp : t) : t :=
  {| x := x sp; y := y sp; texture := texture sp; frame := frame sp;
     body := b; currentAnim := currentAnim sp;
     isPlaying := isPlaying sp; active := active sp |}.
Definition with_anim (a : option string) (p : bool) (sp : t) : t :=
  {| x := x sp; y := y sp; texture := texture sp; frame := frame sp;
     body := body sp; currentAnim := a; isPlaying := p;
     active := active sp |}.
Definition with_active (a : bool) (sp : t) : t :=
  {| x := x sp; y := y sp; texture := texture sp; frame := frame sp;
     body := body sp; currentAnim := currentAnim sp;
     isPlaying := isPlaying sp; active := a |}.
End Sprite.

Module Key.
(** [Phaser.Input.Keyboard.Key]. *)
Record t := { keyCode : N; isDown : bool }.
End Key.

Module KeyCodes.
Definition LEFT : N := 37.
Definition UP : N := 38.
Definition RIGHT : N := 39.
Definition DOWN : N := 40.
End KeyCodes.

(** A sprite is referred to by its index in the store. *)
Abbreviation handle := nat.

(** ** The scene *)

Module ICoords.
(** [interface ICoords]. *)
Record t := { x : number; y : number; frame : number }.
End ICoords.

Record GameScene := {
  (* fields of the class *)
  HOST : string;
  wsClient : option string;            (* the socket, by its URL *)
  myId : string;
  players : gmap string handle;        (* own properties of [this.players] *)
  leftKey : option Key.t;
  rightKey : option Key.t;
  upKey : option Key.t;
  downKey : option Key.t;
  (* the Phaser systems of the scene *)
  sprites : list Sprite.t;             (* every sprite ever made *)
  textures : gmap string Texture.t;    (* the loaded textures *)
  load_queue : list string;            (* keys queued by [this.load] *)
  anims : gmap string (list Frame.t)   (* the animations, by key *)
}.

Definition PORT : string := "8080".
Definition VELOCITY : number := 100%float.

Definition set_wsClient (w : option string) (s : GameScene) : GameScene :=
  {| HOST := HOST s; wsClient := w; myId := myId s; players := players s;
     leftKey := leftKey s; rightKey := rightKey s; upKey := upKey s;
     downKey := downKey s; sprites := sprites s; textures := textures s;
     load_queue := load_queue s; anims := anims s |}.

Definition set_players (p : gmap string handle) (s : GameScene) : GameScene :=
  {| HOST := HOST s; wsClient := wsClient s; myId := myId s; players := p;
     leftKey := leftKey s; rightKey := rightKey s; upKey := upKey s;
     downKey := downKey s; sprites := sprites s; textures := textures s;
     load_queue := load_queue s; anims := anims s |}.

Definition set_keys (l r u d : option Key.t) (s : GameScene) : GameScene :=
  {| HOST := HOST s; wsClient := wsClient s; myId := myId s;
     players := players s; leftKey := l; rightKey := r; upKey := u;
     downKey := d; sprites := sprites s; textures := textures s;
     load_queue := load_queue s; anims := anims s |}.

Definition set_sprites (l : list Sprite.t) (s : GameScene) : GameScene :=
  {| HOST := HOST s; wsClient := wsClient s; myId := myId s;
     players := players s; leftKey := leftKey s; rightKey := rightKey s;
     upKey := upKey s; downKey := downKey s; sprites := l;
     textures := textures s; load_queue := load_queue s; anims := anims s |}.

Definition set_textures (t : gmap string Texture.t) (q : list string)
    (s : GameScene) : GameScene :=
  {| HOST := HOST s; wsClient := wsClient s; myId := myId s;
     players := players s; leftKey := leftKey s; rightKey := rightKey s;
     upKey := upKey s; downKey := downKey s; sprites := sprites s;
     textures := t; load_queue := q; anims := anims s |}.

Definition set_anims (a : gmap string (list Frame.t)) (s : GameScene)
    : GameScene :=
  {| HOST := HOST s; wsClient := wsClient s; myId := myId s;
     players := players s; leftKey := leftKey s; rightKey := rightKey s;
     upKey := upKey s; downKey := downKey s; sprites := sprites s;
     textures := textures s; load_queue := load_queue s; anims := a |}.

(** ** Effects and the monad of the methods *)

(** The calls the scene makes on the outside world: the identity helper,
    the socket, and the presentation layer during reconciliation.  A call
    that makes a sprite carries the handle of the sprite it returned. *)
Inductive effect :=
| uuid_call (result : string)
| ws_open (url : string)
| ws_send (data : value)
| add_sprite (x y : value) (key : string) (frame : value) (h : handle)
| physics_add_sprite (x y : value) (key : string) (frame : value) (h : handle)
| sprite_destroy (h : handle)
| sprite_setX (h : handle) (v : value)
| sprite_setY (h : handle) (v : value)
| sprite_setFrame (h : handle) (v : value).

Inductive completion (A : Type) :=
| Normal (a : A)
| Throw (e : error).
Arguments Normal {A} a.
Arguments Throw {A} e.

Record outcome (A : Type) := Outcome {
  final : GameScene;
  trace : list effect;
  result : completion A }.
Arguments Outcome {A} final trace result.
Arguments final {A} o.
Arguments trace {A} o.
Arguments result {A} o.

Definition M (A : Type) := GameScene → outcome A.

Definition ret {A} (a : A) : M A := λ s, Outcome s [] (Normal a).
Definition throw {A} (e : error) : M A := λ s, Outcome s [] (Throw e).
Definition bind {A B} (m : M A) (f : A → M B) : M B := λ s,
  match m s with
  | Outcome s1 t1 (Normal a) =>
      match f a s1 with
      | Outcome s2 t2 r => Outcome s2 (t1 ++ t2) r
      end
  | Outcome s1 t1 (Throw e) => Outcome s1 t1 (Throw e)
  end.
Definition gets {A} (f : GameScene → A) : M A :=
  λ s, Outcome s [] (Normal (f s)).
Definition modify (f : GameScene → GameScene) : M unit :=
  λ s, Outcome (f s) [] (Normal tt).
Definition emit (e : effect) : M unit := λ s, Outcome s [e] (Normal tt).

Notation "'let*' x := m 'in' k" := (bind m (λ x, k))
  (at level 10, x name, m at level 100, k at level 200, only parsing).
Notation "m >> k" := (bind m (λ _, k))
  (at level 100, k at level 200, right associativity, only parsing).

(** [for (const k of ks) body(k)]: the loop ends at the first exception. *)
Fixpoint for_of {A} (ks : list A) (body : A → M unit) : M unit :=
  match ks with
  | [] => ret tt
  | k :: rest => body k >> for_of rest body
  end.

(** ** The calls on Phaser and on the socket *)

(** What an expression such as [this.players[k]] evaluates to: a sprite,
    a member inherited from [Object.prototype], or [undefined]. *)
Inductive ref :=
| RSprite (h : handle)
| RInherited
| RUndefined.

(** [k in this.players]: own properties and the prototype chain. *)
Definition players_has (k : string) : M bool :=
  gets (λ s, match players s !! k with
             | Some _ => true
             | None => inherited k
             end).

(** [this.players[k]]. *)
Definition players_get (k : string) : M ref :=
  gets (λ s, match players s !! k with
             | Some h => RSprite h
             | None => if inherited k then RInherited else RUndefined
             end).

(** [this.players[k] = h], for a name that becomes an own property.  The
    one name that does not is [__proto__]: the handler never assigns under
    an inherited name, and [create] would only if [uuid()] returned it. *)
Definition players_set (k : string) (h : handle) : M unit :=
  modify (λ s, set_players (<[k := h]> (players s)) s).

(** The sprite behind a reference; a property read on it.  Reading a
    property of [undefined] throws, and so does reading a property of the
    [undefined] that an inherited member has for [texture] or [body]. *)
Definition deref (r : ref) : M Sprite.t :=
  match r with
  | RSprite h =>
      let* s := gets sprites in
      match s !! h with
      | Some sp => ret sp
      | None => throw TypeError
      end
  | RInherited | RUndefined => throw TypeError
  end.

(** A method of the sprite behind [r] that mutates it in place. *)
Definition mutate (r : ref) (f : Sprite.t → Sprite.t) : M unit :=
  let* sp := deref r in
  match r with
  | RSprite h => modify (λ s, set_sprites (<[h := f sp]> (sprites s)) s)
  | _ => throw TypeError
  end.

(** [textures.get(key)]. *)
Definition textures_get (key : string) : M Texture.t :=
  gets (λ s, default MISSING (textures s !! key)).

(** [setPosition(x, y)], [setX(x)] and [setY(y)] take 0 for an argument
    that is [undefined]; in [setPosition] a [y] that is [undefined] is
    the [x] just taken. *)
Definition or_zero (v : value) : value :=
  match v with
  | VUndefined => VNum 0%float
  | _ => v
  end.

Definition or_else (v d : value) : value :=
  match v with
  | VUndefined => d
  | _ => v
  end.

(** [new Sprite(scene, x, y, texture, frame)]: [setPosition(x, y)], then
    [setTexture(key, frame)]. *)
Definition new_sprite (x y : value) (tex : Texture.t) (frame : value)
    (body : option Body.t) : Sprite.t :=
  {| Sprite.x := or_zero x; Sprite.y := or_else y (or_zero x);
     Sprite.texture := tex;
     Sprite.frame := Texture.get tex frame; Sprite.body := body;
     Sprite.currentAnim := None; Sprite.isPlaying := false;
     Sprite.active := true |}.

(** [this.add.sprite(x, y, key, frame)]. *)
Definition this_add_sprite (x y : value) (key : string) (frame : value)
    : M ref :=
  let* tex := textures_get key in
  let* h := gets (λ s, length (sprites s)) in
  modify (λ s, set_sprites (sprites s ++ [new_sprite x y tex frame None]) s) >>
  emit (add_sprite x y key frame h) >>
  ret (RSprite h).

(** [this.physics.add.sprite(x, y, key, frame)]: a sprite with a body,
    at rest. *)
Definition body0 : Body.t :=
  {| Body.velocity_x := 0%float; Body.velocity_y := 0%float |}.

Definition this_physics_add_sprite (x y : value) (key : string)
    (frame : value) : M ref :=
  let* tex := textures_get key in
  let* h := gets (λ s, length (sprites s)) in
  modify (λ s, set_sprites
                 (sprites s ++ [new_sprite x y tex frame (Some body0)]) s) >>
  emit (physics_add_sprite x y key frame h) >>
  ret (RSprite h).

(** Assigning a sprite reference to [this.players[k]]. *)
Definition players_assign (k : string) (r : ref) : M unit :=
  match r with
  | RSprite h => players_set k h
  | _ => ret tt
  end.

Definition effect_on (r : ref) (e : handle → effect) : M unit :=
  match r with
  | RSprite h => emit (e h)
  | _ => ret tt
  end.

(** [player.texture.key]. *)
Definition texture_key (player : ref) : M string :=
  let* sp := deref player in
  ret (Texture.key (Sprite.texture sp)).

(** [player.destroy()], [player.setX(x)], [player.setY(y)],
    [player.setFrame(frame)]. *)
Definition destroy (player : ref) : M unit :=
  mutate player (Sprite.with_active false) >>
  effect_on player sprite_destroy.

Definition setX (player : ref) (x : value) : M unit :=
  mutate player (Sprite.with_x (or_zero x)) >>
  effect_on player (λ h, sprite_setX h x).

Definition setY (player : ref) (y : value) : M unit :=
  mutate player (Sprite.with_y (or_zero y)) >>
  effect_on player (λ h, sprite_setY h y).

Definition setFrame (player : ref) (frame : value) : M unit :=
  mutate player
    (λ sp, Sprite.with_frame (Texture.get (Sprite.texture sp) frame) sp) >>
  effect_on player (λ h, sprite_setFrame h frame).

(** [(player.body as Body).setVelocityX(v)] and its siblings: the cast
    checks nothing, a sprite without a body has [body === null]. *)
Definition velocity_on (f : Body.t → Body.t) (sp : Sprite.t) : Sprite.t :=
  match Sprite.body sp with
  | Some b => Sprite.with_body (Some (f b)) sp
  | None => sp
  end.

Definition with_velocity (f : Body.t → Body.t) (player : ref) : M unit :=
  let* sp := deref player in
  match Sprite.body sp with
  | Some _ => mutate player (velocity_on f)
  | None => throw TypeError
  end.

Definition velocityX (v : number) (b : Body.t) : Body.t :=
  {| Body.velocity_x := v; Body.velocity_y := Body.velocity_y b |}.

Definition velocityY (v : number) (b : Body.t) : Body.t :=
  {| Body.velocity_x := Body.velocity_x b; Body.velocity_y := v |}.

Definition setVelocityX (player : ref) (v : number) : M unit :=
  with_velocity (velocityX v) player.

Definition setVelocityY (player : ref) (v : number) : M unit :=
  with_velocity (velocityY v) player.

(** [body.setVelocity(v)]: the second argument defaults to the first. *)
Definition setVelocity (player : ref) (v : number) : M unit :=
  with_velocity (λ _, {| Body.velocity_x := v; Body.velocity_y := v |}) player.

(** [player.play(key, ignoreIfPlaying)], by the sprite as the call leaves
    it and whether the call returns.  Unless the animation is already
    playing, what plays is stopped and the animation is loaded and
    started: it becomes the current one and the sprite shows its first
    frame.  An animation that has no frame becomes the current one and
    the call then throws, reading the frame that is not there.  With a
    key that is not registered nothing is loaded: the current animation
    is started, and the call throws if there is none. *)
Definition play_sprite (registered : option (list Frame.t)) (key : string)
    (ignoreIfPlaying : bool) (sp : Sprite.t) : Sprite.t * bool :=
  if ignoreIfPlaying && Sprite.isPlaying sp
     && bool_decide (Sprite.currentAnim sp = Some key)
  then (sp, true)
  else match registered with
       | Some (f :: _) =>
           (Sprite.with_frame f (Sprite.with_anim (Some key) true sp), true)
       | Some [] => (Sprite.with_anim (Some key) false sp, false)
       | None =>
           match Sprite.currentAnim sp with
           | Some _ => (Sprite.with_anim (Sprite.currentAnim sp) true sp, true)
           | None => (Sprite.with_anim None false sp, false)
           end
       end.

Definition play (player : ref) (key : string) (ignoreIfPlaying : bool)
    : M unit :=
  let* registered := gets (λ s, anims s !! key) in
  let* sp := deref player in
  mutate player (λ _, (play_sprite registered key ignoreIfPlaying sp).1) >>
  if (play_sprite registered key ignoreIfPlaying sp).2 then ret tt
  else throw TypeError.

(** [player.anims.stop()]. *)
Definition stop_sprite (sp : Sprite.t) : Sprite.t :=
  Sprite.with_anim (Sprite.currentAnim sp) false sp.

Definition anims_stop (player : ref) : M unit :=
  mutate player stop_sprite.

(** [player.update()]: the method of a sprite does nothing. *)
Definition sprite_update (player : ref) : M unit :=
  mutate player (λ sp, sp).

(** [key && key.isDown]. *)
Definition pressed (key : option Key.t) : bool :=
  match key with
  | Some k => Key.isDown k
  | None => false
  end.

(** ** The methods of [GameScene] *)

(** The field initialisers and the constructor: [myId = uuid()] is
    evaluated here, [hostname] is [window.location.hostname]. *)
Definition new_GameScene (hostname : string) (uuid : string)
    : outcome unit :=
  Outcome {| HOST := hostname; wsClient := None; myId := uuid;
             players := ∅; leftKey := None; rightKey := None;
             upKey := None; downKey := None; sprites := [];
             textures := ∅; load_queue := []; anims := ∅ |}
          [uuid_call uuid] (Normal tt).

(** [preload()]: three files are queued. *)
Definition preload : M unit :=
  modify (λ s, set_textures (textures s)
                 (load_queue s ++ ["map"; "tiles"; "player"]) s).

Definition JSON_parse (data : payload) : M value :=
  match data with
  | NotJSON => throw SyntaxError
  | JSON v => ret v
  end.

(** [Object.keys(o)]: [null] and [undefined] cannot be converted to an
    object. *)
Definition Object_keys (o : value) : M (list string) :=
  match o with
  | VUndefined | VNull => throw TypeError
  | _ => ret (map fst (own_props o))
  end.

(** [const { x, y, frame } = c]. *)
Definition destructure (c : value) : M (value * value * value) :=
  match c with
  | VUndefined | VNull => throw TypeError
  | _ => ret (get_prop c "x", get_prop c "y", get_prop c "frame")
  end.

(** The body of the loop of the [onmessage] handler (lines 60-81). *)
Definition onmessage_entry (playersCoordinates : value) (playerId : string)
    : M unit :=
  let* me := gets myId in
  if String.eqb playerId me then ret tt
  else
    let playerCoordinates := get_prop playersCoordinates playerId in
    let* c := destructure playerCoordinates in
    let '(x, y, frame) := c in
    let* known := players_has playerId in
    if negb known then
      let* sp := this_add_sprite x y "player" frame in
      players_assign playerId sp
    else
      (* Have already seen this player before, just update *)
      let* player := players_get playerId in
      let* key := texture_key player in
      if String.eqb key "__MISSING" then
        destroy player >>
        let* sp := this_add_sprite x y "player" frame in
        players_assign playerId sp
      else
        setX player x >>
        setY player y >>
        setFrame player frame.

(** [this.wsClient.onmessage] (lines 55-83). *)
Definition onmessage (data : payload) : M unit :=
  let* playersCoordinates := JSON_parse data in
  let* keys := Object_keys playersCoordinates in
  for_of keys (onmessage_entry playersCoordinates).

(** [init()]: the socket is opened and the handler installed. *)
Definition init : M unit :=
  let* host := gets HOST in
  let url :=
    String.append "ws://" (String.append host (String.append ":" PORT)) in
  modify (set_wsClient (Some url)) >>
  emit (ws_open url).

(** [this.anims.generateFrameNumbers(key, { start, end })], by the frame
    numbers from [start] to [end]: the numbers the texture has a frame
    for are kept, and [anims.create] takes the frames of these numbers. *)
Definition generateFrameNumbers (key : string) (numbers : list number)
    : M (list Frame.t) :=
  let* tex := textures_get key in
  ret (map (λ n, Texture.get tex (VNum n))
           (List.filter (Texture.has tex) numbers)).

(** [this.anims.create({ key, frames, ... })]: an existing animation is
    kept; an animation is made and registered also when [frames] is
    empty. *)
Definition anims_create (key : string) (frames : list Frame.t) : M unit :=
  modify (λ s, set_anims (match anims s !! key with
                          | Some _ => anims s
                          | None => <[key := frames]> (anims s)
                          end) s).

(** [this.input.keyboard.addKey(code)]. *)
Definition addKey (code : N) : Key.t :=
  {| Key.keyCode := code; Key.isDown := false |}.

(** [create()].  The tile map, its layer, the collider and the camera are
    not state the scene reads again; they are left out. *)
Definition create : M unit :=
  (* Player animations *)
  let* left := generateFrameNumbers "player" [8; 9]%float in
  anims_create "left" left >>
  let* right := generateFrameNumbers "player" [1; 2]%float in
  anims_create "right" right >>
  let* up := generateFrameNumbers "player" [11; 12; 13]%float in
  anims_create "up" up >>
  let* down := generateFrameNumbers "player" [4; 5; 6]%float in
  anims_create "down" down >>
  (* Player game object *)
  let* me := gets myId in
  let* sp := this_physics_add_sprite (VNum 48%float) (VNum 48%float) "player"
                                    (VNum 1%float) in
  players_assign me sp >>
  (* Keyboard input bindings *)
  modify (set_keys (Some (addKey KeyCodes.LEFT)) (Some (addKey KeyCodes.RIGHT))
                   (Some (addKey KeyCodes.UP)) (Some (addKey KeyCodes.DOWN))).

(** The object literal of lines 189-194, handed to [JSON.stringify]. *)
Definition sample_message (id : string) (sp : Sprite.t) : value :=
  VObj [ ("id", VStr id);
         ("x", Sprite.x sp);
         ("y", Sprite.y sp);
         ("frame", Frame.name_value (Sprite.frame sp)) ].

(** [this.wsClient.send(JSON.stringify({ ... }))]. *)
Definition send_location (myPlayer : ref) : M unit :=
  let* me := gets myId in
  let* sp := deref myPlayer in
  emit (ws_send (sample_message me sp)).

(** [update()] (lines 149-199); [moving] is the local variable. *)
Definition update : M unit :=
  let* me := gets myId in
  let* myPlayer := players_get me in
  match myPlayer with
  | RUndefined => ret tt
  | _ =>
      let moving := false in
      let* left := gets leftKey in
      let* right := gets rightKey in
      let* moving :=
        if pressed left then
          setVelocityX myPlayer (- VELOCITY)%float >>
          play myPlayer "left" true >>
          ret true
        else if pressed right then
          setVelocityX myPlayer VELOCITY >>
          play myPlayer "right" true >>
          ret true
        else
          setVelocityX myPlayer 0%float >>
          ret moving in
      let* up := gets upKey in
      let* down := gets downKey in
      let* moving :=
        if pressed up then
          setVelocityY myPlayer (- VELOCITY)%float >>
          play myPlayer "up" true >>
          ret true
        else if pressed down then
          setVelocityY myPlayer VELOCITY >>
          play myPlayer "down" true >>
          ret true
        else
          setVelocityY myPlayer 0%float >>
          ret moving in
      (if negb moving then
         setVelocity myPlayer 0%float >>
         anims_stop myPlayer
       else
         let* ws := gets wsClient in
         match ws with
         | Some _ => send_location myPlayer
         | None => ret tt
         end) >>
      sprite_update myPlayer
  end.

(** ** The session: what happens to the scene *)

(** Phaser and the browser drive the scene: the socket delivers a message,
    the loader finishes a queued file, the game loop calls [update], a key
    goes down or up, arcade physics moves a body, a playing animation shows
    its next frame. *)
Inductive event :=
| message (data : payload)
| loaded (key : string) (has : number → bool) (get : value → Frame.t)
| tick
| keyboard (code : N) (down : bool)
| physics (h : handle) (x y vx vy : number)
| animation (h : handle) (f : Frame.t).

Definition key_event (code : N) (down : bool) (key : option Key.t)
    : option Key.t :=
  match key with
  | Some k =>
      if N.eqb (Key.keyCode k) code
      then Some {| Key.keyCode := code; Key.isDown := down |}
      else Some k
  | None => None
  end.

Definition move_body (x y vx vy : number) (sp : Sprite.t) : Sprite.t :=
  match Sprite.body sp with
  | Some _ =>
      Sprite.with_body
        (Some {| Body.velocity_x := vx; Body.velocity_y := vy |})
        (Sprite.with_y (VNum y) (Sprite.with_x (VNum x) sp))
  | None => sp
  end.

Definition next_frame (f : Frame.t) (sp : Sprite.t) : Sprite.t :=
  if Sprite.isPlaying sp then Sprite.with_frame f sp else sp.

Definition step (e : event) : M unit :=
  match e with
  | message data =>
      let* ws := gets wsClient in
      match ws with
      | Some _ => onmessage data
      | None => ret tt
      end
  | loaded key has get =>
      modify (λ s,
        if bool_decide (key ∈ load_queue s)
        then set_textures
               (<[key := {| Texture.key := key; Texture.has := has;
                            Texture.get := get |}]>
                  (textures s))
               (filter (λ k, k ≠ key) (load_queue s)) s
        else s)
  | tick => update
  | keyboard code down =>
      modify (λ s, set_keys (key_event code down (leftKey s))
                            (key_event code down (rightKey s))
                            (key_event code down (upKey s))
                            (key_event code down (downKey s)) s)
  | physics h x y vx vy =>
      modify (λ s, set_sprites (alter (move_body x y vx vy) h (sprites s)) s)
  | animation h f =>
      modify (λ s, set_sprites (alter (next_frame f) h (sprites s)) s)
  end.

(** The event loop: an exception ends the handler that threw it, and the
    next event is handled from the scene it left.  What the host does
    after an exception is in the list of events: a game loop that stops
    at an exception of [update] is a list with no [tick] after it. *)
Fixpoint run (evs : list event) (s : GameScene) : GameScene * list effect :=
  match evs with
  | [] => (s, [])
  | e :: rest =>
      match step e s with
      | Outcome s1 t1 _ =>
          match run rest s1 with
          | (s2, t2) => (s2, (t1 ++ t2))
          end
      end
  end.

(** A session: the scene is constructed, Phaser calls [init] and [preload],
    events arrive while the files load ([loading]), Phaser calls [create],
    and the game loop runs ([playing]). *)
Definition boot (hostname uuid : string) : outcome unit :=
  match new_GameScene hostname uuid with
  | Outcome s0 t0 _ =>
      match (init >> preload) s0 with
      | Outcome s1 t1 r => Outcome s1 (t0 ++ t1) r
      end
  end.

Definition session (hostname uuid : string) (loading playing : list event)
    : GameScene * list effect :=
  match boot hostname uuid with
  | Outcome s0 t0 _ =>
      match run loading s0 with
      | (s1, t1) =>
          match create s1 with
          | Outcome s2 t2 _ =>
              match run playing s2 with
              | (s3, t3) => (s3, (t0 ++ t1 ++ t2 ++ t3))
              end
          end
      end
  end.

(** The scenes of the loading phase and of the playing phase. *)
Inductive booting : GameScene → Prop :=
| booting_boot hostname uuid : booting (final (boot hostname uuid))
| booting_step s e : booting s → booting (final (step e s)).

Inductive running : GameScene → Prop :=
| running_create s : booting s → running (final (create s))
| running_step s e : running s → running (final (step e s)).

(** ** Reconciliation as the specification words it *)

(** A sample on the wire: an object whose [x], [y] and [frame] are
    numbers. *)
Definition decode_sample (v : value) : option ICoords.t :=
  match v with
  | VObj _ =>
      match get_prop v "x", get_prop v "y", get_prop v "frame" with
      | VNum x, VNum y, VNum frame =>
          Some {| ICoords.x := x; ICoords.y := y; ICoords.frame := frame |}
      | _, _, _ => None
      end
  | _ => None
  end.

Fixpoint decode_entries (props : list (string * value))
    : option (list (string * ICoords.t)) :=
  match props with
  | [] => Some []
  | (id, v) :: rest =>
      match decode_sample v, decode_entries rest with
      | Some c, Some table => Some ((id, c) :: table)
      | _, _ => None
      end
  end.

(** A well-formed state table: an object that maps each id, once, to a
    sample.  [decode_table v = None] says that [v] is not one. *)
Definition decode_table (v : value) : option (list (string * ICoords.t)) :=
  match v with
  | VObj props =>
      if bool_decide (NoDup props.*1) then decode_entries props else None
  | _ => None
  end.

Inductive action :=
| Create (id : string) (sample : ICoords.t)
| Replace (id : string) (sample : ICoords.t)
| Update (id : string) (sample : ICoords.t).

Definition action_id (a : action) : string :=
  match a with
  | Create id _ | Replace id _ | Update id _ => id
  end.

(** [isHandleValid]: the sprite shows a texture that was loaded. *)
Definition valid_handle (s : GameScene) (h : handle) : bool :=
  match sprites s !! h with
  | Some sp => negb (String.eqb (Texture.key (Sprite.texture sp)) "__MISSING")
  | None => false
  end.

(** The three-way rule, decided on the registry of the scene [s]. *)
Definition spec_action (s : GameScene) (id : string) (sample : ICoords.t)
    : action :=
  match players s !! id with
  | None => Create id sample
  | Some h => if valid_handle s h then Update id sample else Replace id sample
  end.

(** One action for every id of the table but the local one. *)
Definition spec_reconcile (s : GameScene) (table : list (string * ICoords.t))
    : list action :=
  map (λ e, spec_action s e.1 e.2)
      (filter (λ e, e.1 ≠ myId s) table).

(** What the presentation layer is asked to do for an action. *)
Definition perform (a : action) : M unit :=
  match a with
  | Create id c =>
      let* sp := this_add_sprite (VNum (ICoords.x c)) (VNum (ICoords.y c))
                   "player" (VNum (ICoords.frame c)) in
      players_assign id sp
  | Replace id c =>
      let* old := players_get id in
      destroy old >>
      let* sp := this_add_sprite (VNum (ICoords.x c)) (VNum (ICoords.y c))
                   "player" (VNum (ICoords.frame c)) in
      players_assign id sp
  | Update id c =>
      let* player := players_get id in
      setX player (VNum (ICoords.x c)) >>
      setY player (VNum (ICoords.y c)) >>
      setFrame player (VNum (ICoords.frame c))
  end.

(** ** Predicates of the statements *)

(** The keys a payload has. *)
Definition payload_keys (data : payload) : list string :=
  match data with
  | NotJSON => []
  | JSON v => (own_props v).*1
  end.

(** The sprite an effect is a call on, or returned. *)
Definition effect_handle (e : effect) : option handle :=
  match e with
  | add_sprite _ _ _ _ h | physics_add_sprite _ _ _ _ h
  | sprite_destroy h | sprite_setX h _ | sprite_setY h _
  | sprite_setFrame h _ => Some h
  | uuid_call _ | ws_open _ | ws_send _ => None
  end.


(** The registry holds sprites of the store, and no sprite twice. *)
Definition registry_ok (s : GameScene) : Prop :=
  map_Forall (λ _ h, h < length (sprites s)) (players s).

Definition registry_inj (s : GameScene) : Prop :=
  ∀ id1 id2 h,
    players s !! id1 = Some h → players s !! id2 = Some h → id1 = id2.

(** A movement command is active: an arrow key that is bound is down. *)
Definition moving (s : GameScene) : bool :=
  pressed (leftKey s) || pressed (rightKey s)
  || pressed (upKey s) || pressed (downKey s).

(** The sprite of the local participant. *)
Definition local_sprite (s : GameScene) : option Sprite.t :=
  h ← players s !! myId s; sprites s !! h.

(** The shape of a message from client to server, for the participant
    [id]: [{ id: string, x: number, y: number, frame: number|string }]. *)
Definition client_message (id : string) (msg : value) : Prop :=
  ∃ (x y : number) (frame : value),
    msg = VObj [("id", VStr id); ("x", VNum x); ("y", VNum y);
                ("frame", frame)]
    ∧ ((∃ n, frame = VNum n) ∨ (∃ name, frame = VStr name)).

(** ** Closed forms used by the proofs *)

Definition prepend {A} (t : list effect) (o : outcome A) : outcome A :=
  Outcome (final o) (t ++ trace o) (result o).

Definition nullish (v : value) : bool :=
  match v with
  | VUndefined | VNull => true
  | _ => false
  end.

Definition player_texture (s : GameScene) : Texture.t :=
  default MISSING (textures s !! "player").

(** The scene after a sprite was added and registered under [k]. *)
Definition created (k : string) (x y frame : value) (s : GameScene)
    : GameScene :=
  set_players (<[k := length (sprites s)]> (players s))
    (set_sprites
       (sprites s ++ [new_sprite x y (player_texture s) frame None]) s).

Definition destroyed (h : handle) (sp : Sprite.t) (s : GameScene)
    : GameScene :=
  set_sprites (<[h := Sprite.with_active false sp]> (sprites s)) s.

Definition updated (h : handle) (x y frame : value) (sp : Sprite.t)
    (s : GameScene) : GameScene :=
  set_sprites
    (<[h := Sprite.with_frame (Texture.get (Sprite.texture sp) frame)
              (Sprite.with_y (or_zero y) (Sprite.with_x (or_zero x) sp))]>
       (sprites s)) s.

(** The loop body for an id that is not the local one and whose entry
    can be destructured. *)
Definition entry_known (k : string) (x y frame : value) (s : GameScene)
    : outcome unit :=
  match players s !! k with
  | None =>
      if inherited k then Outcome s [] (Throw TypeError)
      else Outcome (created k x y frame s)
                   [add_sprite x y "player" frame (length (sprites s))]
                   (Normal tt)
  | Some h =>
      match sprites s !! h with
      | None => Outcome s [] (Throw TypeError)
      | Some sp =>
          if String.eqb (Texture.key (Sprite.texture sp)) "__MISSING"
          then Outcome (created k x y frame (destroyed h sp s))
                       [sprite_destroy h;
                        add_sprite x y "player" frame (length (sprites s))]
                       (Normal tt)
          else Outcome (updated h x y frame sp s)
                       [sprite_setX h x; sprite_setY h y;
                        sprite_setFrame h frame]
                       (Normal tt)
      end
  end.

(** What one [update] does to the sprite of the local participant: each
    axis, by the sprite as it leaves it and whether [play] returned. *)
Definition horizontal (s : GameScene) (sp : Sprite.t) : Sprite.t * bool :=
  if pressed (leftKey s) then
    play_sprite (anims s !! "left") "left" true
      (velocity_on (velocityX (- VELOCITY)%float) sp)
  else if pressed (rightKey s) then
    play_sprite (anims s !! "right") "right" true
      (velocity_on (velocityX VELOCITY) sp)
  else (velocity_on (velocityX 0%float) sp, true).

Definition vertical (s : GameScene) (sp : Sprite.t) : Sprite.t * bool :=
  if pressed (upKey s) then
    play_sprite (anims s !! "up") "up" true
      (velocity_on (velocityY (- VELOCITY)%float) sp)
  else if pressed (downKey s) then
    play_sprite (anims s !! "down") "down" true
      (velocity_on (velocityY VELOCITY) sp)
  else (velocity_on (velocityY 0%float) sp, true).

Definition settle (s : GameScene) (sp : Sprite.t) : Sprite.t :=
  if moving s then sp
  else stop_sprite
         (velocity_on (λ _, {| Body.velocity_x := 0%float;
                              Body.velocity_y := 0%float |}) sp).

(** The local sprite as [update] leaves it, and whether [update] got to
    its end: a [play] that throws ends it on the spot. *)
Definition steered (s : GameScene) (sp : Sprite.t) : Sprite.t * bool :=
  if (horizontal s sp).2 then
    if (vertical s (horizontal s sp).1).2
    then (settle s (vertical s (horizontal s sp).1).1, true)
    else ((vertical s (horizontal s sp).1).1, false)
  else ((horizontal s sp).1, false).

Definition steer (s : GameScene) (sp : Sprite.t) : Sprite.t :=
  (steered s sp).1.

Definition steer_ok (s : GameScene) (sp : Sprite.t) : bool :=
  (steered s sp).2.

(** The messages one [update] sends, the local sprite being [sp] when
    line 188 is reached. *)
Definition sent (s : GameScene) (sp : Sprite.t) : list effect :=
  if moving s then
    match wsClient s with
    | Some _ => [ws_send (sample_message (myId s) sp)]
    | None => []
    end
  else [].

(** The calls and the completion of one [update] on the local sprite
    [sp]. *)
Definition tick_trace (s : GameScene) (sp : Sprite.t) : list effect :=
  if steer_ok s sp then sent s (steer s sp) else [].

Definition tick_result (s : GameScene) (sp : Sprite.t) : completion unit :=
  if steer_ok s sp then Normal tt else Throw TypeError.

(** The fields a handler of the scene never writes after [create]. *)
Definition same_fields (s s' : GameScene) : Prop :=
  HOST s' = HOST s ∧ wsClient s' = wsClient s ∧ myId s' = myId s
  ∧ leftKey s' = leftKey s ∧ rightKey s' = rightKey s
  ∧ upKey s' = upKey s ∧ downKey s' = downKey s
  ∧ textures s' = textures s ∧ load_queue s' = load_queue s
  ∧ anims s' = anims s.

(** [within K s s' t]: going from [s] to [s'] with the calls [t] touched
    the registry only at ids of [K] other than the local one, and only
    the sprites those ids had in [s] or sprites made since. *)
Record within (K : string → Prop) (s s' : GameScene) (t : list effect)
    : Prop := {
  within_fields : same_fields s s';
  within_length : length (sprites s) ≤ length (sprites s');
  within_players : ∀ k, ¬ K k ∨ k = myId s → players s' !! k = players s !! k;
  within_old : ∀ k h, players s' !! k = Some h → h < length (sprites s) →
                     players s !! k = Some h;
  within_dom : ∀ k, is_Some (players s !! k) → is_Some (players s' !! k);
  within_sprites : ∀ h, h < length (sprites s) →
      (∀ k, K k → k ≠ myId s → players s !! k ≠ Some h) →
      sprites s' !! h = sprites s !! h;
  within_texture : ∀ h sp, sprites s !! h = Some sp →
      ∃ sp', sprites s' !! h = Some sp'
             ∧ Sprite.texture sp' = Sprite.texture sp
             ∧ Sprite.body sp' = Sprite.body sp;
  within_trace : ∀ e, e ∈ t →
      ∃ h, effect_handle e = Some h
           ∧ (h < length (sprites s) →
              ∃ k, K k ∧ k ≠ myId s ∧ players s !! k = Some h);
  within_ok : registry_ok s → registry_ok s';
  within_inj : registry_ok s → registry_inj s → registry_inj s'
}.

(** The local sprite, if there is one, has a body and numeric
    coordinates. *)
Definition sprite_good (sp : Sprite.t) : Prop :=
  is_Some (Sprite.body sp)
  ∧ (∃ x, Sprite.x sp = VNum x) ∧ (∃ y, Sprite.y sp = VNum y).

Definition local_ok (s : GameScene) : Prop :=
  ∀ sp, local_sprite s = Some sp → sprite_good sp.

Definition scene_ok (s : GameScene) : Prop :=
  registry_ok s ∧ registry_inj s ∧ local_ok s.

(** The scenes of a session. *)
Definition in_session (s : GameScene) : Prop := booting s ∨ running s.


(** ** Predicates of the further properties *)

(** The sprite sheet of the players is loaded. *)
Definition sheet_loaded (s : GameScene) : Prop :=
  Texture.key (player_texture s) ≠ "__MISSING".

(** The participant [id] is shown at [x], [y], with the frame [frame] of
    the texture of its sprite; a loaded texture if the sheet is loaded. *)
Definition shows (s : GameScene) (id : string) (x y frame : value) : Prop :=
  ∃ h sp,
    players s !! id = Some h ∧ sprites s !! h = Some sp
    ∧ Sprite.x sp = x ∧ Sprite.y sp = y
    ∧ Sprite.frame sp = Texture.get (Sprite.texture sp) frame
    ∧ (sheet_loaded s → Texture.key (Sprite.texture sp) ≠ "__MISSING").

(** Every sprite of the registry shows a loaded texture. *)
Definition all_valid (s : GameScene) : Prop :=
  map_Forall (λ _ h, valid_handle s h = true) (players s).

(** The active sprites are those of the registry. *)
Definition no_orphans (s : GameScene) : Prop :=
  ∀ h sp, sprites s !! h = Some sp →
          Sprite.active sp = true ↔ ∃ id, players s !! id = Some h.




(** Handling an entry of the id [k] updates its sprite: the id is in
    the registry, with a sprite that shows a loaded texture. *)
Definition updates (s : GameScene) (k : string) : bool :=
  match players s !! k with
  | Some h => valid_handle s h
  | None => false
  end.

(** The [y] of the sprite of [k] after an entry with the coordinates [x]
    and [y] was applied to it in the scene [s]: [setY] stores 0 for
    [undefined], and [setPosition], when a sprite is made, the [x] it
    stores. *)
Definition placed_y (s : GameScene) (k : string) (x y : value) : value :=
  if updates s k then or_zero y else or_else y (or_zero x).

(** The keys of a payload other than the local id. *)
Definition remote_keys (s : GameScene) (data : payload) : list string :=
  List.filter (λ k, negb (String.eqb k (myId s))) (payload_keys data).

(** A message is dropped: it is not JSON, it is [null], it has no key
    but the local id, or the entry of its first other key cannot be
    applied ([null], or an inherited name that is not in the registry). *)
Definition dropped (s : GameScene) (data : payload) : bool :=
  match data with
  | NotJSON => true
  | JSON v =>
      nullish v
      || match remote_keys s data with
         | [] => true
         | k :: _ =>
             nullish (get_prop v k)
             || match players s !! k with
                | Some _ => false
                | None => inherited k
                end
         end
  end.

(** A payload is malformed: it is not JSON, or not a well-formed
    table. *)
Definition malformed (data : payload) : bool :=
  match data with
  | NotJSON => true
  | JSON v => match decode_table v with Some _ => false | None => true end
  end.




(** An outcome with the sprite [h] of its scene replaced by [u]. *)
Definition patched (h : handle) (u : Sprite.t) (o : outcome unit)
    : outcome unit :=
  Outcome (set_sprites (<[h := u]> (sprites (final o))) (final o))
          (trace o) (result o).

(** The sprites of the other participants have no body and play no
    animation. *)
Definition remote_idle (s : GameScene) : Prop :=
  ∀ id h sp,
    players s !! id = Some h → id ≠ myId s → sprites s !! h = Some sp →
    Sprite.body sp = None ∧ Sprite.isPlaying sp = false.

(** ** Concrete scenes, for running the model *)

(** A sprite sheet of sixteen frames, named by their indices 0 to 15,
    beside the frame ["__BASE"] of the whole image. *)
Definition sheet_numbers : list number :=
  [0; 1; 2; 3; 4; 5; 6; 7; 8; 9; 10; 11; 12; 13; 14; 15]%float.

Definition example_has (n : number) : bool :=
  existsb (PrimFloat.eqb n) sheet_numbers.

(** [!name]. *)
Definition falsy (v : value) : bool :=
  match v with
  | VUndefined | VNull | VBool false | VStr "" => true
  | VNum n => PrimFloat.eqb n 0%float || negb (PrimFloat.eqb n n)
  | _ => false
  end.

(** [frames[name]]: the frame whose name, as a property key, is that of
    [name]; an array of one element has the key of that element. *)
Fixpoint sheet_name (name : value) : option Frame.name_t :=
  match name with
  | VNum n =>
      match list_find (PrimFloat.eqb n) sheet_numbers with
      | Some (_, i) => Some (Frame.Index i)
      | None => None
      end
  | VStr k =>
      if String.eqb k "__BASE" then Some (Frame.Name "__BASE")
      else match list_find (λ p : nat * number, String.eqb k (pretty p.1))
                   (imap pair sheet_numbers) with
           | Some (_, (_, i)) => Some (Frame.Index i)
           | None => None
           end
  | VArr [e] => sheet_name e
  | _ => None
  end.

(** [get(name)]: a falsy name, or one that names no frame, gives the
    first frame. *)
Definition example_sheet (name : value) : Frame.t :=
  {| Frame.name :=
       if falsy name then Frame.Index 0%float
       else default (Frame.Index 0%float) (sheet_name name) |}.

Definition coords (x y frame : number) : ICoords.t :=
  {| ICoords.x := x; ICoords.y := y; ICoords.frame := frame |}.
Arguments coords (x y frame)%_float.

(** The JSON object of a sample and of a table. *)
Definition sample_json (c : ICoords.t) : value :=
  VObj [("x", VNum (ICoords.x c)); ("y", VNum (ICoords.y c));
        ("frame", VNum (ICoords.frame c))].

Definition table_json (table : list (string * ICoords.t)) : value :=
  VObj (prod_map id sample_json <$> table).

(** The participant C has loaded its files and started playing. *)
Definition scene_C : GameScene :=
  (session "localhost" "C" [loaded "player" example_has example_sheet] []).1.

(** The same, after C has heard of participant A. *)
Definition scene_CA : GameScene :=
  (session "localhost" "C" [loaded "player" example_has example_sheet]
     [message (JSON (table_json [("A", coords 10 20 4)]))]).1.

(** The same, with the left arrow key held down. *)
Definition scene_C_left : GameScene :=
  (session "localhost" "C" [loaded "player" example_has example_sheet]
     [keyboard KeyCodes.LEFT true]).1.


(** Participant C heard of A before the sprite sheet was loaded. *)
Definition scene_C_early : GameScene :=
  (session "localhost" "C"
     [message (JSON (table_json [("A", coords 10 20 4)]));
      loaded "player" example_has example_sheet] []).1.


(** * Proofs *)

(** ** Running the monad step by step *)

Ltac scene_simpl :=
  cbn [final trace result app prepend HOST wsClient myId players leftKey
       rightKey upKey downKey sprites textures load_queue anims set_wsClient
       set_players set_keys set_sprites set_textures set_anims negb fst snd].

Lemma bind_run {A B} (m : M A) (f : A → M B) s s1 t1 a :
  m s = Outcome s1 t1 (Normal a) → bind m f s = prepend t1 (f a s1).
Proof. intros H. unfold bind. rewrite H. by destruct (f a s1). Qed.

Lemma bind_throws {A B} (m : M A) (f : A → M B) s s1 t1 e :
  m s = Outcome s1 t1 (Throw e) → bind m f s = Outcome s1 t1 (Throw e).
Proof. intros H. unfold bind. by rewrite H. Qed.

Lemma prepend_nil {A} (o : outcome A) : prepend [] o = o.
Proof. by destruct o. Qed.

Lemma deref_sprite s h sp :
  sprites s !! h = Some sp → deref (RSprite h) s = Outcome s [] (Normal sp).
Proof.
  intros H. unfold deref. erewrite bind_run by reflexivity.
  rewrite H. reflexivity.
Qed.

Lemma deref_dangling s h :
  sprites s !! h = None → deref (RSprite h) s = Outcome s [] (Throw TypeError).
Proof.
  intros H. unfold deref. erewrite bind_run by reflexivity.
  rewrite H. reflexivity.
Qed.

Lemma mutate_sprite s h sp f :
  sprites s !! h = Some sp →
  mutate (RSprite h) f s
  = Outcome (set_sprites (<[h := f sp]> (sprites s)) s) [] (Normal tt).
Proof.
  intros H. unfold mutate.
  erewrite bind_run by (by apply deref_sprite). reflexivity.
Qed.

Lemma lookup_mutated s h sp sp' :
  sprites s !! h = Some sp →
  sprites (set_sprites (<[h := sp']> (sprites s)) s) !! h = Some sp'.
Proof.
  intros H. cbn. apply list_lookup_insert_eq. by eapply lookup_lt_Some.
Qed.

Lemma texture_key_run s h sp :
  sprites s !! h = Some sp →
  texture_key (RSprite h) s
  = Outcome s [] (Normal (Texture.key (Sprite.texture sp))).
Proof.
  intros H. unfold texture_key.
  erewrite bind_run by (by apply deref_sprite). reflexivity.
Qed.

Lemma texture_key_dangling s h :
  sprites s !! h = None →
  texture_key (RSprite h) s = Outcome s [] (Throw TypeError).
Proof.
  intros H. unfold texture_key.
  erewrite bind_throws by (by apply deref_dangling). reflexivity.
Qed.

Lemma destroy_run s h sp :
  sprites s !! h = Some sp →
  destroy (RSprite h) s
  = Outcome (set_sprites (<[h := Sprite.with_active false sp]> (sprites s)) s)
            [sprite_destroy h] (Normal tt).
Proof.
  intros H. unfold destroy.
  erewrite bind_run by (by apply mutate_sprite). reflexivity.
Qed.

Lemma setX_run s h sp x :
  sprites s !! h = Some sp →
  setX (RSprite h) x s
  = Outcome (set_sprites (<[h := Sprite.with_x (or_zero x) sp]> (sprites s))
               s)
            [sprite_setX h x] (Normal tt).
Proof.
  intros H. unfold setX.
  erewrite bind_run by (by apply mutate_sprite). reflexivity.
Qed.

Lemma setY_run s h sp y :
  sprites s !! h = Some sp →
  setY (RSprite h) y s
  = Outcome (set_sprites (<[h := Sprite.with_y (or_zero y) sp]> (sprites s))
               s)
            [sprite_setY h y] (Normal tt).
Proof.
  intros H. unfold setY.
  erewrite bind_run by (by apply mutate_sprite). reflexivity.
Qed.

Lemma setFrame_run s h sp frame :
  sprites s !! h = Some sp →
  setFrame (RSprite h) frame s
  = Outcome (set_sprites
               (<[h := Sprite.with_frame
                         (Texture.get (Sprite.texture sp) frame) sp]>
                  (sprites s)) s)
            [sprite_setFrame h frame] (Normal tt).
Proof.
  intros H. unfold setFrame.
  erewrite bind_run by (by apply mutate_sprite). reflexivity.
Qed.

Lemma destructure_run c s :
  nullish c = false →
  destructure c s
  = Outcome s [] (Normal (get_prop c "x", get_prop c "y", get_prop c "frame")).
Proof. by destruct c. Qed.

Lemma destructure_throws c s :
  nullish c = true → destructure c s = Outcome s [] (Throw TypeError).
Proof. by destruct c. Qed.

Create HintDb mrun.
#[local] Hint Resolve deref_sprite mutate_sprite texture_key_run destroy_run
  setX_run setY_run setFrame_run lookup_mutated destructure_run : mrun.
#[local] Hint Resolve deref_dangling texture_key_dangling destructure_throws
  : mrun.

Ltac mstep :=
  first [ erewrite bind_run by first [ reflexivity | solve [eauto with mrun] ]
        | erewrite bind_throws
            by first [ reflexivity | solve [eauto with mrun] ] ];
  scene_simpl.

(** ** The loop body in closed form *)

Lemma entry_local pc k s :
  String.eqb k (myId s) = true →
  onmessage_entry pc k s = Outcome s [] (Normal tt).
Proof. intros H. unfold onmessage_entry. mstep. by rewrite H. Qed.

Lemma entry_nullish pc k s :
  String.eqb k (myId s) = false → nullish (get_prop pc k) = true →
  onmessage_entry pc k s = Outcome s [] (Throw TypeError).
Proof.
  intros H Hc. unfold onmessage_entry. mstep. rewrite H. by mstep.
Qed.

Lemma entry_known_eq pc k s :
  String.eqb k (myId s) = false → nullish (get_prop pc k) = false →
  onmessage_entry pc k s
  = entry_known k (get_prop (get_prop pc k) "x")
      (get_prop (get_prop pc k) "y") (get_prop (get_prop pc k) "frame") s.
Proof.
  intros Hme Hc. unfold onmessage_entry, entry_known.
  mstep. rewrite Hme. mstep.
  unfold players_has, players_get. mstep.
  destruct (players s !! k) as [h|] eqn:Hk; scene_simpl.
  - mstep. rewrite Hk.
    destruct (sprites s !! h) as [sp|] eqn:Hh.
    + mstep. destruct (String.eqb _ "__MISSING").
      * do 2 mstep. unfold players_assign, players_set, modify.
        unfold created, destroyed, player_texture. scene_simpl.
        rewrite !length_insert. reflexivity.
      * mstep. mstep. erewrite setFrame_run by eauto with mrun.
        scene_simpl. rewrite !list_insert_insert_eq. reflexivity.
    + mstep. reflexivity.
  - destruct (inherited k); scene_simpl.
    + mstep. rewrite Hk. mstep. reflexivity.
    + mstep. reflexivity.
Qed.

(** ** What reconciliation may touch *)

Lemma same_fields_trans s1 s2 s3 :
  same_fields s1 s2 → same_fields s2 s3 → same_fields s1 s3.
Proof.
  unfold same_fields. intros H1 H2.
  destruct_and!. repeat split; congruence.
Qed.

Lemma within_refl K s : within K s s [].
Proof.
  split; try done.
  - intros h sp H. by exists sp.
  - intros e He. by apply elem_of_nil in He.
Qed.

Lemma within_trans K s1 s2 s3 t1 t2 :
  within K s1 s2 t1 → within K s2 s3 t2 → within K s1 s3 (t1 ++ t2).
Proof.
  intros F1 F2.
  assert (Hid : myId s2 = myId s1) by apply F1.
  split.
  - eapply same_fields_trans; [apply F1 | apply F2].
  - etrans; [apply F1 | apply F2].
  - intros k Hk. rewrite (within_players _ _ _ _ F2), (within_players _ _ _ _ F1);
      [done | done | by rewrite Hid].
  - intros k h Hk Hh. apply (within_old _ _ _ _ F1); [|done].
    apply (within_old _ _ _ _ F2); [done|].
    pose proof (within_length _ _ _ _ F1). lia.
  - intros k Hk. by apply (within_dom _ _ _ _ F2), (within_dom _ _ _ _ F1).
  - intros h Hh Hk. pose proof (within_length _ _ _ _ F1).
    rewrite (within_sprites _ _ _ _ F2), (within_sprites _ _ _ _ F1);
      [done | done | done | lia |].
    intros k HK Hne Hp. rewrite Hid in Hne.
    eapply Hk; [done | done |]. by apply (within_old _ _ _ _ F1).
  - intros h sp Hsp.
    destruct (within_texture _ _ _ _ F1 h sp Hsp) as (sp2 & H2 & Ht2 & Hb2).
    destruct (within_texture _ _ _ _ F2 h sp2 H2) as (sp3 & H3 & Ht3 & Hb3).
    exists sp3. split; [done|]. split; congruence.
  - intros e He. apply elem_of_app in He as [He|He].
    + apply (within_trace _ _ _ _ F1 e He).
    + destruct (within_trace _ _ _ _ F2 e He) as (h & Hh & Hk).
      exists h. split; [done|]. intros Hlt.
      pose proof (within_length _ _ _ _ F1).
      destruct Hk as (k & HK & Hne & Hp); [lia|].
      exists k. rewrite Hid in Hne. split; [done|]. split; [done|].
      by apply (within_old _ _ _ _ F1).
  - intros Hok. by apply (within_ok _ _ _ _ F2), (within_ok _ _ _ _ F1).
  - intros Hok Hinj. apply (within_inj _ _ _ _ F2).
    + by apply (within_ok _ _ _ _ F1).
    + by apply (within_inj _ _ _ _ F1).
Qed.

Lemma within_mutated K s k h sp sp' t :
  K k → k ≠ myId s → players s !! k = Some h → sprites s !! h = Some sp →
  Sprite.texture sp' = Sprite.texture sp → Sprite.body sp' = Sprite.body sp →
  (∀ e, e ∈ t → effect_handle e = Some h) →
  within K s (set_sprites (<[h := sp']> (sprites s)) s) t.
Proof.
  intros HK Hne Hk Hh Ht Hb He.
  pose proof (lookup_lt_Some _ _ _ Hh) as Hlt.
  split; scene_simpl; try done.
  - by rewrite length_insert.
  - intros h' _ Hk'. apply list_lookup_insert_ne. intros ->.
    by apply (Hk' k).
  - intros h' sp0 Hsp0. destruct (decide (h = h')) as [Heq|Hneq].
    + subst h'. exists sp'. rewrite list_lookup_insert_eq by done.
      by simplify_eq.
    + exists sp0. by rewrite list_lookup_insert_ne.
  - intros e Hin. exists h. split; [by apply He|]. intros _. by exists k.
  - unfold registry_ok. scene_simpl. by rewrite length_insert.
Qed.

Lemma registry_ok_fresh s k :
  registry_ok s → players s !! k ≠ Some (length (sprites s)).
Proof. intros Hok Hk. apply Hok in Hk. cbn in Hk. lia. Qed.

Lemma within_created K s k x y fr :
  K k → k ≠ myId s →
  within K s (created k x y fr s)
        [add_sprite x y "player" fr (length (sprites s))].
Proof.
  intros HK Hne. unfold created.
  split; scene_simpl; try done.
  - rewrite length_app. lia.
  - intros k' [Hk'| ->]; apply lookup_insert_ne; congruence.
  - intros k' h Hk' Hlt. rewrite lookup_insert in Hk'.
    case_decide; simplify_eq; [lia | done].
  - intros k' Hk'. rewrite lookup_insert. by case_decide.
  - intros h Hlt _. by apply lookup_app_l.
  - intros h sp Hsp. exists sp. split; [|done].
    rewrite lookup_app_l; [done|]. by eapply lookup_lt_Some.
  - intros e He. apply list_elem_of_singleton in He as ->.
    exists (length (sprites s)). split; [done|]. lia.
  - intros Hok. unfold registry_ok in *. scene_simpl.
    apply map_Forall_insert_2.
    + rewrite length_app. cbn. lia.
    + eapply map_Forall_impl; [done|]. cbn. intros _ h Hh.
      rewrite length_app. lia.
  - intros Hok Hinj id1 id2 h H1 H2.
    cbn [players set_players set_sprites] in H1, H2.
    rewrite lookup_insert in H1. rewrite lookup_insert in H2.
    repeat case_decide; simplify_eq; try done;
      first [ by eapply Hinj | exfalso; by eapply (registry_ok_fresh s) ].
Qed.

Lemma within_entry_known K k x y fr s :
  K k → k ≠ myId s →
  within K s (final (entry_known k x y fr s)) (trace (entry_known k x y fr s)).
Proof.
  intros HK Hne. unfold entry_known.
  destruct (players s !! k) as [h|] eqn:Hk.
  - destruct (sprites s !! h) as [sp|] eqn:Hh; [|apply within_refl].
    destruct (String.eqb _ "__MISSING"); scene_simpl.
    + replace (length (sprites s))
        with (length (sprites (destroyed h sp s)))
        by (unfold destroyed; scene_simpl; apply length_insert).
      apply (within_trans _ _ (destroyed h sp s) _ [sprite_destroy h]).
      * eapply within_mutated; try done.
        intros e He. by apply list_elem_of_singleton in He as ->.
      * by apply within_created.
    + eapply within_mutated; try done.
      intros e He.
      repeat (apply elem_of_cons in He as [->|He]; [done|]).
      by apply elem_of_nil in He.
  - destruct (inherited k); [apply within_refl|]. by apply within_created.
Qed.

Lemma eqb_myId k s : String.eqb k (myId s) = false ↔ k ≠ myId s.
Proof. apply String.eqb_neq. Qed.

Lemma within_entry K pc k s :
  K k →
  within K s (final (onmessage_entry pc k s)) (trace (onmessage_entry pc k s)).
Proof.
  intros HK. destruct (String.eqb k (myId s)) eqn:Hme.
  - rewrite entry_local by done. apply within_refl.
  - destruct (nullish (get_prop pc k)) eqn:Hc.
    + rewrite entry_nullish by done. apply within_refl.
    + rewrite entry_known_eq by done.
      apply within_entry_known; [done|]. by apply eqb_myId.
Qed.

Lemma within_bind {A B} K (m : M A) (f : A → M B) s :
  within K s (final (m s)) (trace (m s)) →
  (∀ a s1, within K s1 (final (f a s1)) (trace (f a s1))) →
  within K s (final (bind m f s)) (trace (bind m f s)).
Proof.
  intros Hm Hf. unfold bind.
  destruct (m s) as [s1 t1 [a|e]]; [|done].
  specialize (Hf a s1). destruct (f a s1) as [s2 t2 r].
  by eapply within_trans.
Qed.

Lemma within_for_of K pc ks s :
  (∀ k, k ∈ ks → K k) →
  within K s (final (for_of ks (onmessage_entry pc) s))
        (trace (for_of ks (onmessage_entry pc) s)).
Proof.
  revert s. induction ks as [|k ks IH]; intros s HK.
  - apply within_refl.
  - cbn [for_of]. apply within_bind.
    + apply within_entry, HK. by left.
    + intros _ s1. apply IH. intros k' Hk'. apply HK. by right.
Qed.

Lemma onmessage_JSON v s :
  onmessage (JSON v) s
  = if nullish v then Outcome s [] (Throw TypeError)
    else for_of (own_props v).*1 (onmessage_entry v) s.
Proof.
  unfold onmessage. mstep. rewrite prepend_nil.
  destruct v; first [ by mstep | mstep; by rewrite prepend_nil ].
Qed.

Lemma within_onmessage data s :
  within (λ k, k ∈ payload_keys data) s
        (final (onmessage data s)) (trace (onmessage data s)).
Proof.
  destruct data as [|v]; [apply within_refl|].
  rewrite onmessage_JSON. destruct (nullish v); [apply within_refl|].
  by apply within_for_of.
Qed.

(** ** [update] in closed form *)

Lemma lookup_insert_sprite (l : list Sprite.t) h sp sp' :
  l !! h = Some sp → <[h := sp']> l !! h = Some sp'.
Proof. intros H. apply list_lookup_insert_eq. by eapply lookup_lt_Some. Qed.

Lemma body_velocity_on f sp :
  is_Some (Sprite.body sp) → is_Some (Sprite.body (velocity_on f sp)).
Proof. unfold velocity_on. intros [b ->]. by eexists. Qed.

Lemma body_play_sprite r key ign sp :
  Sprite.body (play_sprite r key ign sp).1 = Sprite.body sp.
Proof.
  unfold play_sprite. destruct (_ && _); [done|].
  destruct r as [[|f fs]|]; [done..|]. by destruct (Sprite.currentAnim sp).
Qed.

Lemma is_Some_body_play_sprite r key ign sp :
  is_Some (Sprite.body sp) →
  is_Some (Sprite.body (play_sprite r key ign sp).1).
Proof. by rewrite body_play_sprite. Qed.

Lemma with_velocity_run s h sp f :
  sprites s !! h = Some sp → is_Some (Sprite.body sp) →
  with_velocity f (RSprite h) s
  = Outcome (set_sprites (<[h := velocity_on f sp]> (sprites s)) s) []
            (Normal tt).
Proof.
  intros H [b Hb]. unfold with_velocity.
  erewrite bind_run by (by apply deref_sprite). rewrite Hb.
  erewrite mutate_sprite by done. reflexivity.
Qed.

Lemma play_run s h sp key ign :
  sprites s !! h = Some sp →
  play (RSprite h) key ign s
  = Outcome (set_sprites
               (<[h := (play_sprite (anims s !! key) key ign sp).1]>
                  (sprites s)) s) []
            (if (play_sprite (anims s !! key) key ign sp).2
             then Normal tt else Throw TypeError).
Proof.
  intros H. unfold play. erewrite bind_run by reflexivity.
  erewrite bind_run by (by apply deref_sprite).
  erewrite bind_run by (by apply mutate_sprite).
  by destruct (play_sprite _ _ _ _).2.
Qed.

Lemma send_location_run s h sp :
  sprites s !! h = Some sp →
  send_location (RSprite h) s
  = Outcome s [ws_send (sample_message (myId s) sp)] (Normal tt).
Proof.
  intros H. unfold send_location. erewrite bind_run by reflexivity.
  erewrite bind_run by (by apply deref_sprite). reflexivity.
Qed.

#[local] Hint Resolve lookup_insert_sprite body_velocity_on
  is_Some_body_play_sprite : mrun.
#[local] Hint Extern 1 (setVelocityX _ _ _ = _) =>
  unfold setVelocityX; eapply with_velocity_run : mrun.
#[local] Hint Extern 1 (setVelocityY _ _ _ = _) =>
  unfold setVelocityY; eapply with_velocity_run : mrun.
#[local] Hint Extern 1 (setVelocity _ _ _ = _) =>
  unfold setVelocity; eapply with_velocity_run : mrun.
#[local] Hint Extern 1 (anims_stop _ _ = _) =>
  unfold anims_stop; eapply mutate_sprite : mrun.
#[local] Hint Extern 1 (sprite_update _ _ = _) =>
  unfold sprite_update; eapply mutate_sprite : mrun.
#[local] Hint Extern 1 (send_location _ _ = _) =>
  eapply send_location_run : mrun.

Lemma bind_assoc {A B C} (m : M A) (f : A → M B) (g : B → M C) s :
  bind (bind m f) g s = bind m (λ a, bind (f a) g) s.
Proof.
  unfold bind. destruct (m s) as [s1 t1 [a|e]]; [|done].
  destruct (f a s1) as [s2 t2 [b|e]]; [|done].
  destruct (g b s2) as [s3 t3 r]. by rewrite app_assoc.
Qed.

Lemma set_sprites_twice l1 l2 s :
  set_sprites l2 (set_sprites l1 s) = set_sprites l2 s.
Proof. reflexivity. Qed.

Ltac ustep :=
  rewrite ?bind_assoc; mstep;
  rewrite ?prepend_nil, ?set_sprites_twice, ?list_insert_insert_eq.

Lemma bind_if {A B} (m : M A) (f : A → M B) s s1 t1 (b : bool) a e :
  m s = Outcome s1 t1 (if b then Normal a else Throw e) →
  bind m f s = if b then prepend t1 (f a s1) else Outcome s1 t1 (Throw e).
Proof. destruct b; [apply bind_run | apply bind_throws]. Qed.

(** A velocity is set and an animation played (lines 154-157 and their
    siblings). *)
Lemma command_run s h sp f key :
  sprites s !! h = Some sp → is_Some (Sprite.body sp) →
  (with_velocity f (RSprite h) >> play (RSprite h) key true >> ret true) s
  = Outcome (set_sprites
               (<[h := (play_sprite (anims s !! key) key true
                          (velocity_on f sp)).1]> (sprites s)) s) []
            (if (play_sprite (anims s !! key) key true (velocity_on f sp)).2
             then Normal true else Throw TypeError).
Proof.
  intros Hsp Hb. erewrite bind_run by (by apply with_velocity_run).
  rewrite prepend_nil.
  pose proof (play_run (set_sprites (<[h := velocity_on f sp]> (sprites s)) s)
                h (velocity_on f sp) key true) as Hp.
  cbn [anims set_sprites sprites] in Hp. rewrite list_insert_insert_eq in Hp.
  rewrite (bind_if _ _ _ _ _ _ _ _ (Hp ltac:(by eapply lookup_insert_sprite))).
  by destruct (play_sprite _ _ _ _).2.
Qed.

Lemma horizontal_run s h sp (moving : bool) :
  sprites s !! h = Some sp → is_Some (Sprite.body sp) →
  (if pressed (leftKey s) then
     setVelocityX (RSprite h) (- VELOCITY)%float >>
     play (RSprite h) "left" true >>
     ret true
   else if pressed (rightKey s) then
     setVelocityX (RSprite h) VELOCITY >>
     play (RSprite h) "right" true >>
     ret true
   else
     setVelocityX (RSprite h) 0%float >>
     ret moving) s
  = Outcome (set_sprites (<[h := (horizontal s sp).1]> (sprites s)) s) []
            (if (horizontal s sp).2
             then Normal (pressed (leftKey s) || pressed (rightKey s)
                          || moving)
             else Throw TypeError).
Proof.
  intros Hsp Hb. unfold horizontal, setVelocityX.
  destruct (pressed (leftKey s)); [|destruct (pressed (rightKey s))].
  - by apply command_run.
  - by apply command_run.
  - erewrite bind_run by (by apply with_velocity_run). by rewrite prepend_nil.
Qed.

Lemma vertical_run s h sp (moving : bool) :
  sprites s !! h = Some sp → is_Some (Sprite.body sp) →
  (if pressed (upKey s) then
     setVelocityY (RSprite h) (- VELOCITY)%float >>
     play (RSprite h) "up" true >>
     ret true
   else if pressed (downKey s) then
     setVelocityY (RSprite h) VELOCITY >>
     play (RSprite h) "down" true >>
     ret true
   else
     setVelocityY (RSprite h) 0%float >>
     ret moving) s
  = Outcome (set_sprites (<[h := (vertical s sp).1]> (sprites s)) s) []
            (if (vertical s sp).2
             then Normal (pressed (upKey s) || pressed (downKey s) || moving)
             else Throw TypeError).
Proof.
  intros Hsp Hb. unfold vertical, setVelocityY.
  destruct (pressed (upKey s)); [|destruct (pressed (downKey s))].
  - by apply command_run.
  - by apply command_run.
  - erewrite bind_run by (by apply with_velocity_run). by rewrite prepend_nil.
Qed.

Lemma body_horizontal s sp :
  is_Some (Sprite.body sp) → is_Some (Sprite.body (horizontal s sp).1).
Proof.
  intros Hb. unfold horizontal.
  repeat case_match; cbn [fst]; eauto with mrun.
Qed.

Lemma body_vertical s sp :
  is_Some (Sprite.body sp) → is_Some (Sprite.body (vertical s sp).1).
Proof.
  intros Hb. unfold vertical.
  repeat case_match; cbn [fst]; eauto with mrun.
Qed.

(** Lines 183-197, [moving] being what the two axes made it. *)
Lemma settle_run s h sp :
  sprites s !! h = Some sp → is_Some (Sprite.body sp) →
  ((if negb (moving s) then
      setVelocity (RSprite h) 0%float >>
      anims_stop (RSprite h)
    else
      let* ws := gets wsClient in
      match ws with
      | Some _ => send_location (RSprite h)
      | None => ret tt
      end) >>
   sprite_update (RSprite h)) s
  = Outcome (set_sprites (<[h := settle s sp]> (sprites s)) s)
            (sent s (settle s sp)) (Normal tt).
Proof.
  intros Hsp Hb. unfold settle, sent. destruct (moving s); cbn [negb].
  - ustep. destruct (wsClient s).
    + ustep. unfold sprite_update. by erewrite mutate_sprite by done.
    + ustep. unfold sprite_update. by erewrite mutate_sprite by done.
  - do 2 ustep. unfold sprite_update.
    erewrite mutate_sprite by eauto with mrun.
    scene_simpl. by rewrite list_insert_insert_eq.
Qed.

Lemma update_running s h sp :
  players s !! myId s = Some h → sprites s !! h = Some sp →
  is_Some (Sprite.body sp) →
  update s = Outcome (set_sprites (<[h := steer s sp]> (sprites s)) s)
                     (tick_trace s sp) (tick_result s sp).
Proof.
  intros Hk Hh Hb. unfold update. ustep. unfold players_get. ustep.
  rewrite Hk. do 2 ustep.
  unfold steer, steer_ok, tick_trace, tick_result, steer, steer_ok, steered.
  pose proof (horizontal_run s h sp false Hh Hb) as Hhor.
  destruct (horizontal s sp).2 eqn:Hok1; cbn [fst snd].
  2: by rewrite (bind_throws _ _ _ _ _ _ Hhor).
  rewrite (bind_run _ _ _ _ _ _ Hhor), prepend_nil. do 2 ustep.
  pose proof (vertical_run (set_sprites (<[h := (horizontal s sp).1]>
                                          (sprites s)) s)
                h (horizontal s sp).1
                (pressed (leftKey s) || pressed (rightKey s) || false)) as Hver.
  cbn [upKey downKey set_sprites sprites] in Hver.
  rewrite list_insert_insert_eq in Hver.
  specialize (Hver ltac:(by eapply lookup_insert_sprite)
                   ltac:(by apply body_horizontal)).
  change (vertical (set_sprites _ s) (horizontal s sp).1)
    with (vertical s (horizontal s sp).1) in Hver.
  destruct (vertical s (horizontal s sp).1).2 eqn:Hok2; cbn [fst snd].
  2: by rewrite (bind_throws _ _ _ _ _ _ Hver).
  rewrite (bind_run _ _ _ _ _ _ Hver), prepend_nil.
  pose proof (settle_run (set_sprites (<[h := (vertical s (horizontal s sp).1).1]>
                                        (sprites s)) s)
                h (vertical s (horizontal s sp).1).1) as Hset.
  cbn [set_sprites sprites] in Hset. rewrite list_insert_insert_eq in Hset.
  specialize (Hset ltac:(by eapply lookup_insert_sprite)
                   ltac:(by apply body_vertical, body_horizontal)).
  replace (pressed (upKey s) || pressed (downKey s)
           || (pressed (leftKey s) || pressed (rightKey s) || false))
    with (moving s)
    by (unfold moving; destruct (pressed (leftKey s)),
          (pressed (rightKey s)), (pressed (upKey s)),
          (pressed (downKey s)); reflexivity).
  exact Hset.
Qed.

Lemma update_no_player s :
  players s !! myId s = None →
  final (update s) = s ∧ trace (update s) = [].
Proof.
  intros Hk. unfold update. ustep. unfold players_get. ustep. rewrite Hk.
  destruct (inherited (myId s)); [|done].
  do 2 ustep.
  destruct (pressed (leftKey s)); [|destruct (pressed (rightKey s))];
    by ustep.
Qed.

(** ** The invariant of a session *)

(** What [velocity_on], [play] and [stop] keep of a sprite, [update]
    keeps. *)
Lemma steer_keeps_prop (P : Sprite.t → Prop) s sp :
  (∀ f sp0, P sp0 → P (velocity_on f sp0)) →
  (∀ r k i sp0, P sp0 → P (play_sprite r k i sp0).1) →
  (∀ sp0, P sp0 → P (stop_sprite sp0)) →
  P sp → P (steer s sp).
Proof.
  intros Hv Hp Hs H.
  assert (Hh : P (horizontal s sp).1).
  { unfold horizontal. repeat case_match; cbn [fst]; eauto. }
  assert (Hvt : P (vertical s (horizontal s sp).1).1).
  { unfold vertical. repeat case_match; cbn [fst]; eauto. }
  unfold steer, steered, settle. repeat case_match; cbn [fst]; eauto.
Qed.

Lemma sprite_good_steer s sp : sprite_good sp → sprite_good (steer s sp).
Proof.
  apply steer_keeps_prop.
  - intros f sp0 (Hb & Hx & Hy). split; [by apply body_velocity_on|].
    unfold velocity_on. by destruct (Sprite.body sp0).
  - intros r k i sp0 (Hb & Hx & Hy).
    split; [by apply is_Some_body_play_sprite|].
    unfold play_sprite. destruct (_ && _); [done|].
    destruct r as [[|f fs]|]; [done..|].
    by destruct (Sprite.currentAnim sp0).
  - by intros sp0 (Hb & Hx & Hy).
Qed.

Lemma sprite_good_move_body x y vx vy sp :
  sprite_good sp → sprite_good (move_body x y vx vy sp).
Proof.
  intros (Hb & Hx & Hy). unfold move_body.
  destruct (Sprite.body sp); [|done]. split; eauto.
Qed.

Lemma sprite_good_next_frame f sp :
  sprite_good sp → sprite_good (next_frame f sp).
Proof. intros H. unfold next_frame. by destruct (Sprite.isPlaying sp). Qed.

(** Changing sprites in place keeps the invariant when the changes keep
    a good sprite good. *)
Lemma scene_ok_sprites s l :
  scene_ok s → length l = length (sprites s) →
  (∀ h sp sp', sprites s !! h = Some sp → l !! h = Some sp' →
               sprite_good sp → sprite_good sp') →
  scene_ok (set_sprites l s).
Proof.
  intros (Hok & Hinj & Hloc) Hlen Hgood. split; [|split].
  - unfold registry_ok in *. scene_simpl. by rewrite Hlen.
  - done.
  - intros sp'. unfold local_sprite. scene_simpl.
    destruct (players s !! myId s) as [h|] eqn:Hk; [|done]. cbn.
    intros Hsp'.
    assert (is_Some (sprites s !! h)) as [sp Hsp].
    { apply lookup_lt_is_Some. rewrite <-Hlen. by eapply lookup_lt_Some. }
    eapply Hgood; [done.. |]. apply Hloc. unfold local_sprite.
    by rewrite Hk.
Qed.

Lemma scene_ok_alter s f h :
  scene_ok s → (∀ sp, sprite_good sp → sprite_good (f sp)) →
  scene_ok (set_sprites (alter f h (sprites s)) s).
Proof.
  intros Hs Hf. apply scene_ok_sprites; [done | apply length_alter |].
  intros h' sp sp' Hsp Hsp' Hg. destruct (decide (h = h')) as [<-|Hne].
  - rewrite list_lookup_alter_eq, Hsp in Hsp'. simplify_eq/=. eauto.
  - rewrite list_lookup_alter_ne in Hsp' by done. by simplify_eq.
Qed.

Lemma scene_ok_update s : scene_ok s → scene_ok (final (update s)).
Proof.
  intros Hs. destruct (players s !! myId s) as [h|] eqn:Hk.
  - pose proof Hs as (Hok & Hinj & Hloc).
    assert (is_Some (sprites s !! h)) as [sp Hsp].
    { apply lookup_lt_is_Some. by apply Hok in Hk. }
    assert (sprite_good sp) as Hg.
    { apply Hloc. unfold local_sprite. by rewrite Hk. }
    rewrite (update_running s h sp) by (done || apply Hg). scene_simpl.
    apply scene_ok_sprites; [done | apply length_insert |].
    intros h' sp1 sp2 H1 H2 Hg1.
    destruct (decide (h = h')) as [<-|Hne].
    + rewrite list_lookup_insert_eq in H2 by (by eapply lookup_lt_Some).
      simplify_eq. by apply sprite_good_steer.
    + rewrite list_lookup_insert_ne in H2 by done. by simplify_eq.
  - by rewrite (proj1 (update_no_player s Hk)).
Qed.

Lemma local_sprite_within K s s' t :
  within K s s' t → registry_ok s → registry_inj s →
  local_sprite s' = local_sprite s.
Proof.
  intros F Hok Hinj. unfold local_sprite.
  rewrite (proj1 (proj2 (proj2 (within_fields _ _ _ _ F)))).
  rewrite (within_players _ _ _ _ F) by by right.
  destruct (players s !! myId s) as [h|] eqn:Hk; [|done]. cbn.
  apply (within_sprites _ _ _ _ F); [by apply Hok in Hk|].
  intros k _ Hne Hk'. apply Hne. by eapply Hinj.
Qed.

Lemma scene_ok_within K s s' t : within K s s' t → scene_ok s → scene_ok s'.
Proof.
  intros F (Hok & Hinj & Hloc). split; [|split].
  - by apply (within_ok _ _ _ _ F).
  - by apply (within_inj _ _ _ _ F).
  - intros sp. rewrite (local_sprite_within _ _ _ _ F) by done. apply Hloc.
Qed.

Lemma step_message data s :
  step (message data) s
  = match wsClient s with
    | Some _ => onmessage data s
    | None => Outcome s [] (Normal tt)
    end.
Proof. cbn [step]. mstep. rewrite prepend_nil. by destruct (wsClient s). Qed.

Lemma scene_ok_step e s : scene_ok s → scene_ok (final (step e s)).
Proof.
  intros Hs. destruct e as [data|key has get| |code down|h x y vx vy|h f];
    [|cbn [step]..].
  - rewrite step_message. destruct (wsClient s); [|done].
    by eapply scene_ok_within; [apply within_onmessage|].
  - unfold modify. scene_simpl. by case_bool_decide.
  - by apply scene_ok_update.
  - done.
  - apply scene_ok_alter; [done|]. apply sprite_good_move_body.
  - apply scene_ok_alter; [done|]. apply sprite_good_next_frame.
Qed.

Lemma update_cases s :
  scene_ok s →
  (players s !! myId s = None ∧ final (update s) = s ∧ trace (update s) = [])
  ∨ (∃ h sp, players s !! myId s = Some h ∧ sprites s !! h = Some sp
             ∧ sprite_good sp
             ∧ update s
               = Outcome (set_sprites (<[h := steer s sp]> (sprites s)) s)
                         (tick_trace s sp) (tick_result s sp)).
Proof.
  intros (Hok & Hinj & Hloc). destruct (players s !! myId s) as [h|] eqn:Hk.
  - right. assert (is_Some (sprites s !! h)) as [sp Hsp].
    { apply lookup_lt_is_Some. by apply Hok in Hk. }
    assert (sprite_good sp) as Hg.
    { apply Hloc. unfold local_sprite. by rewrite Hk. }
    exists h, sp. repeat (split; [done|]).
    apply update_running; [done..|apply Hg].
  - left. split; [done|]. by apply update_no_player.
Qed.

Lemma step_static e s :
  scene_ok s →
  myId (final (step e s)) = myId s ∧ wsClient (final (step e s)) = wsClient s.
Proof.
  intros Hs. destruct e as [data|key has get| |code down|h x y vx vy|h f];
    [|cbn [step]..].
  - rewrite step_message. destruct (wsClient s) eqn:Hws; [|done].
    pose proof (within_fields _ _ _ _ (within_onmessage data s)) as F.
    unfold same_fields in F. destruct_and!. split; congruence.
  - unfold modify. scene_simpl. by case_bool_decide.
  - by destruct (update_cases s Hs)
      as [(_ & -> & _)|(h & sp & _ & _ & _ & ->)].
  - done.
  - done.
  - done.
Qed.

Lemma step_local_sprite e s :
  scene_ok s → is_Some (local_sprite s) →
  is_Some (local_sprite (final (step e s))).
Proof.
  intros Hs Hl. pose proof Hs as (Hok & Hinj & Hloc).
  destruct e as [data|key has get| |code down|h x y vx vy|h f];
    [|cbn [step]..].
  - rewrite step_message. destruct (wsClient s); [|done].
    by rewrite (local_sprite_within _ _ _ _ (within_onmessage data s)).
  - unfold modify. scene_simpl. by case_bool_decide.
  - destruct (update_cases s Hs) as [(_ & -> & _)|(h & sp & Hk & Hsp & _ & ->)];
      [done|].
    unfold local_sprite. scene_simpl. rewrite Hk. cbn.
    erewrite lookup_insert_sprite by done. by eexists.
  - done.
  - unfold modify, local_sprite in *. scene_simpl.
    destruct (players s !! myId s) as [h'|]; [|done]. cbn in *.
    apply lookup_lt_is_Some. rewrite length_alter.
    by apply lookup_lt_is_Some.
  - unfold modify, local_sprite in *. scene_simpl.
    destruct (players s !! myId s) as [h'|]; [|done]. cbn in *.
    apply lookup_lt_is_Some. rewrite length_alter.
    by apply lookup_lt_is_Some.
Qed.

Lemma create_run s :
  ∃ a,
    create s
    = Outcome
        (set_keys (Some (addKey KeyCodes.LEFT)) (Some (addKey KeyCodes.RIGHT))
           (Some (addKey KeyCodes.UP)) (Some (addKey KeyCodes.DOWN))
           (set_players (<[myId s := length (sprites s)]> (players s))
              (set_sprites
                 (sprites s ++
                  [new_sprite (VNum 48%float) (VNum 48%float)
                     (player_texture s) (VNum 1%float) (Some body0)])
                 (set_anims a s))))
        [physics_add_sprite (VNum 48%float) (VNum 48%float) "player"
           (VNum 1%float) (length (sprites s))]
        (Normal tt).
Proof.
  unfold create, generateFrameNumbers, anims_create. 
  repeat ustep. eexists. reflexivity.
Qed.

Lemma scene_ok_create s : scene_ok s → scene_ok (final (create s)).
Proof.
  intros (Hok & Hinj & Hloc). destruct (create_run s) as [a ->].
  scene_simpl. split; [|split].
  - unfold registry_ok in *. scene_simpl. apply map_Forall_insert_2.
    + rewrite length_app. cbn. lia.
    + eapply map_Forall_impl; [done|]. cbn. intros _ h Hh.
      rewrite length_app. lia.
  - intros id1 id2 h H1 H2.
    cbn [players set_keys set_players set_sprites] in H1, H2.
    rewrite lookup_insert in H1. rewrite lookup_insert in H2.
    repeat case_decide; simplify_eq; try done;
      first [ by eapply Hinj | exfalso; by eapply (registry_ok_fresh s) ].
  - intros sp. unfold local_sprite. scene_simpl.
    rewrite lookup_insert_eq. cbn. rewrite list_lookup_middle by done.
    intros [= <-]. split; [by eexists|]. split; by eexists.
Qed.

Lemma create_static s :
  myId (final (create s)) = myId s
  ∧ wsClient (final (create s)) = wsClient s
  ∧ is_Some (local_sprite (final (create s))).
Proof.
  destruct (create_run s) as [a ->]. scene_simpl. do 2 (split; [done|]).
  unfold local_sprite. scene_simpl. rewrite lookup_insert_eq. cbn.
  rewrite list_lookup_middle by done. by eexists.
Qed.

Lemma boot_run hostname uuid :
  boot hostname uuid
  = Outcome
      {| HOST := hostname;
         wsClient :=
           Some (String.append "ws://"
                   (String.append hostname (String.append ":" PORT)));
         myId := uuid; players := ∅; leftKey := None; rightKey := None;
         upKey := None; downKey := None; sprites := []; textures := ∅;
         load_queue := ["map"; "tiles"; "player"]; anims := ∅ |}
      [uuid_call uuid;
       ws_open (String.append "ws://"
                  (String.append hostname (String.append ":" PORT)))]
      (Normal tt).
Proof. reflexivity. Qed.

Lemma booting_ok s : booting s → scene_ok s ∧ is_Some (wsClient s).
Proof.
  induction 1 as [hostname uuid|s e _ [IH1 IH2]].
  - rewrite boot_run. scene_simpl. split; [|by eexists].
    split; [|split]; [apply map_Forall_empty | |]; by intros ?.
  - split; [by apply scene_ok_step|].
    by rewrite (proj2 (step_static e s IH1)).
Qed.

Lemma running_ok s :
  running s →
  scene_ok s ∧ is_Some (wsClient s) ∧ is_Some (local_sprite s).
Proof.
  induction 1 as [s Hb|s e _ (IH1 & IH2 & IH3)].
  - apply booting_ok in Hb as [H1 H2].
    destruct (create_static s) as (_ & Hws & Hl).
    split; [by apply scene_ok_create|]. by rewrite Hws.
  - split; [by apply scene_ok_step|].
    rewrite (proj2 (step_static e s IH1)).
    split; [done|]. by apply step_local_sprite.
Qed.

Lemma in_session_ok s : in_session s → scene_ok s ∧ is_Some (wsClient s).
Proof.
  intros [H|H]; [by apply booting_ok|].
  apply running_ok in H. by destruct_and!.
Qed.


(** The scene a session ends in is a scene of the playing phase, and the
    scenes of its loading phase are booting. *)
Lemma run_booting evs s : booting s → booting (run evs s).1.
Proof.
  revert s. induction evs as [|e evs IH]; intros s Hs; [done|].
  cbn [run]. pose proof (booting_step s e Hs) as Hs'.
  destruct (step e s) as [s1 t1 r]. specialize (IH s1 Hs').
  by destruct (run evs s1).
Qed.

Lemma run_running evs s : running s → running (run evs s).1.
Proof.
  revert s. induction evs as [|e evs IH]; intros s Hs; [done|].
  cbn [run]. pose proof (running_step s e Hs) as Hs'.
  destruct (step e s) as [s1 t1 r]. specialize (IH s1 Hs').
  by destruct (run evs s1).
Qed.

Lemma session_running hostname uuid loading playing :
  running (session hostname uuid loading playing).1.
Proof.
  unfold session.
  pose proof (run_booting loading _ (booting_boot hostname uuid)) as Hb.
  destruct (boot hostname uuid) as [s0 t0 r0]. cbn [final] in Hb.
  destruct (run loading s0) as [s1 t1]. cbn [fst] in Hb.
  pose proof (run_running playing _ (running_create s1 Hb)) as Hr.
  destruct (create s1) as [s2 t2 r2]. cbn [final] in Hr.
  by destruct (run playing s2).
Qed.

(** ** Reconciliation refines the three-way rule *)

Lemma decode_sample_Some v c :
  decode_sample v = Some c →
  nullish v = false
  ∧ get_prop v "x" = VNum (ICoords.x c)
  ∧ get_prop v "y" = VNum (ICoords.y c)
  ∧ get_prop v "frame" = VNum (ICoords.frame c).
Proof.
  unfold decode_sample. destruct v; try done.
  destruct (get_prop _ "x"); try done.
  destruct (get_prop _ "y"); try done.
  destruct (get_prop _ "frame"); try done.
  by intros [= <-].
Qed.

Lemma own_lookup_elem k e (props : list (string * value)) :
  NoDup props.*1 → (k, e) ∈ props → own_lookup k props = e.
Proof.
  induction props as [|[k' e'] props IH]; intros Hnd Hin.
  - by apply elem_of_nil in Hin.
  - apply NoDup_cons in Hnd as [Hk' Hnd]. cbn [own_lookup].
    apply elem_of_cons in Hin as [[= -> ->]|Hin].
    + by rewrite String.eqb_refl.
    + destruct (String.eqb_spec k k') as [->|_]; [|by apply IH].
      exfalso. apply Hk'. apply list_elem_of_fmap. by exists (k', e).
Qed.

Lemma entry_known_perform s k c :
  registry_ok s → (players s !! k = None → inherited k = false) →
  entry_known k (VNum (ICoords.x c)) (VNum (ICoords.y c))
    (VNum (ICoords.frame c)) s
  = perform (spec_action s k c) s
  ∧ result (perform (spec_action s k c) s) = Normal tt.
Proof.
  intros Hok Hinh. unfold entry_known, spec_action, valid_handle.
  destruct (players s !! k) as [h|] eqn:Hk.
  - assert (is_Some (sprites s !! h)) as [sp Hsp].
    { apply lookup_lt_is_Some. by apply Hok in Hk. }
    rewrite Hsp. destruct (String.eqb _ "__MISSING"); cbn [negb perform].
    + unfold players_get. mstep. rewrite Hk. do 2 mstep.
      unfold players_assign, players_set, modify, created, destroyed,
        player_texture. scene_simpl. by rewrite !length_insert.
    + unfold players_get. mstep. rewrite Hk. do 2 mstep.
      erewrite setFrame_run by eauto with mrun. scene_simpl.
      unfold updated. by rewrite !list_insert_insert_eq.
  - rewrite Hinh by done. cbn [perform]. by mstep.
Qed.

Lemma entry_known_dom s k x y fr :
  result (entry_known k x y fr s) = Normal tt →
  dom (players (final (entry_known k x y fr s))) = {[k]} ∪ dom (players s).
Proof.
  unfold entry_known. destruct (players s !! k) as [h|] eqn:Hk.
  - destruct (sprites s !! h) as [sp|]; [|done].
    destruct (String.eqb _ "__MISSING"); intros _; scene_simpl.
    + unfold created, destroyed. scene_simpl. by rewrite dom_insert_L.
    + apply elem_of_dom_2 in Hk. set_solver.
  - destruct (inherited k); [done|]. intros _. unfold created. scene_simpl.
    by rewrite dom_insert_L.
Qed.

Lemma valid_handle_within K s s' t h :
  within K s s' t → h < length (sprites s) →
  valid_handle s' h = valid_handle s h.
Proof.
  intros F Hh. unfold valid_handle.
  apply lookup_lt_is_Some in Hh as [sp Hsp].
  destruct (within_texture _ _ _ _ F h sp Hsp) as (sp' & -> & -> & _).
  by rewrite Hsp.
Qed.

Lemma spec_action_within K s s' t k c :
  within K s s' t → registry_ok s → ¬ K k →
  spec_action s' k c = spec_action s k c.
Proof.
  intros F Hok HK. unfold spec_action.
  rewrite (within_players _ _ _ _ F) by by left.
  destruct (players s !! k) as [h|] eqn:Hk; [|done].
  rewrite (valid_handle_within _ _ _ _ _ F); [done|]. by apply Hok in Hk.
Qed.

Lemma for_of_cons {A} (k : A) ks body s :
  for_of (k :: ks) body s = bind (body k) (λ _, for_of ks body) s.
Proof. reflexivity. Qed.

Lemma spec_reconcile_cons s k c table :
  spec_reconcile s ((k, c) :: table)
  = if String.eqb k (myId s) then spec_reconcile s table
    else spec_action s k c :: spec_reconcile s table.
Proof.
  unfold spec_reconcile. rewrite filter_cons. cbn [fst snd].
  destruct (String.eqb_spec k (myId s)); by case_decide.
Qed.

Lemma for_of_refines pc s0 props : ∀ table s,
  myId s = myId s0 → registry_ok s → NoDup props.*1 →
  decode_entries props = Some table →
  (∀ k e, (k, e) ∈ props → get_prop pc k = e) →
  (∀ k, k ∈ props.*1 → k ≠ myId s0 → inherited k = false) →
  (∀ k c, k ∈ props.*1 → spec_action s k c = spec_action s0 k c) →
  for_of props.*1 (onmessage_entry pc) s
  = for_of (spec_reconcile s0 table) perform s
  ∧ result (for_of props.*1 (onmessage_entry pc) s) = Normal tt
  ∧ dom (players (final (for_of props.*1 (onmessage_entry pc) s)))
    = dom (players s) ∪ (list_to_set props.*1 ∖ {[myId s0]}).
Proof.
  induction props as [|[k e] props IH];
    intros table s Hid Hok Hnd Hdec Hget Hinh Hact.
  - cbn in Hdec. injection Hdec as <-. cbn. split; [done|].
    split; [done|]. set_solver.
  - cbn [decode_entries] in Hdec.
    destruct (decode_sample e) as [c|] eqn:He; [|done].
    destruct (decode_entries props) as [table'|] eqn:Hd; [|done].
    injection Hdec as <-.
    cbn [fmap list_fmap fst] in *. apply NoDup_cons in Hnd as [Hk Hnd].
    rewrite for_of_cons, spec_reconcile_cons, <-Hid.
    assert (Hrest : ∀ s1, myId s1 = myId s0 → registry_ok s1 →
              (∀ k' c', k' ∈ props.*1 →
                        spec_action s1 k' c' = spec_action s0 k' c') →
              for_of props.*1 (onmessage_entry pc) s1
              = for_of (spec_reconcile s0 table') perform s1
              ∧ result (for_of props.*1 (onmessage_entry pc) s1) = Normal tt
              ∧ dom (players (final (for_of props.*1 (onmessage_entry pc) s1)))
                = dom (players s1) ∪ (list_to_set props.*1 ∖ {[myId s0]})).
    { intros s1 Hid1 Hok1 Hact1. apply IH; try done.
      - intros k' e' Hin. apply Hget. by right.
      - intros k' Hin. apply Hinh. by right. }
    destruct (String.eqb k (myId s)) eqn:Hme.
    + erewrite bind_run by (by apply entry_local). rewrite prepend_nil.
      apply String.eqb_eq in Hme.
      destruct (Hrest s) as (H1 & H2 & H3); try done.
      { intros k' c' Hin. apply Hact. by right. }
      split; [done|]. split; [done|]. rewrite H3.
      rewrite list_to_set_cons, Hme, Hid.
      apply set_eq. intros z. rewrite !elem_of_union, !elem_of_difference,
        !elem_of_union, !elem_of_singleton. naive_solver.
    + apply eqb_myId in Hme.
      destruct (decode_sample_Some _ _ He) as (Hnull & Hx & Hy & Hf).
      assert (Hpc : get_prop pc k = e) by (apply Hget; by left).
      assert (Hk' : players s !! k = None → inherited k = false).
      { intros _. apply Hinh; [by left | by rewrite <-Hid]. }
      destruct (entry_known_perform s k c Hok Hk') as [Hperf Hres].
      assert (Hentry : onmessage_entry pc k s = perform (spec_action s k c) s).
      { rewrite entry_known_eq by (by rewrite ?Hpc; try apply eqb_myId).
        by rewrite Hpc, Hx, Hy, Hf. }
      assert (Hdom : dom (players (final (perform (spec_action s k c) s)))
                     = {[k]} ∪ dom (players s)).
      { rewrite <-Hperf. apply entry_known_dom. by rewrite Hperf. }
      pose proof (within_entry (λ k', k' = k) pc k s eq_refl) as F.
      rewrite Hentry in F. rewrite <-(Hact k c) by by left.
      rewrite for_of_cons.
      destruct (perform (spec_action s k c) s) as [s1 t1 r1] eqn:Hp.
      cbn [final trace result] in *. subst r1.
      rewrite (bind_run _ _ _ _ _ _ Hentry), (bind_run _ _ _ _ _ _ Hp).
      destruct (Hrest s1) as (H1 & H2 & H3).
      { rewrite <-Hid. apply (within_fields _ _ _ _ F). }
      { by apply (within_ok _ _ _ _ F). }
      { intros k' c' Hin. rewrite <-Hact by by right.
        apply (spec_action_within _ _ _ _ _ _ F Hok).
        intros Heq. apply Hk. by rewrite <-Heq. }
      split; [by rewrite H1|]. scene_simpl. split; [done|].
      rewrite H3, Hdom, list_to_set_cons. 
      apply set_eq. intros z. rewrite !elem_of_union, !elem_of_difference,
        !elem_of_union, !elem_of_singleton. rewrite <-Hid. naive_solver.
Qed.

(** ** The trace of a step *)

Lemma decode_entries_keys props table :
  decode_entries props = Some table → table.*1 = props.*1.
Proof.
  revert table. induction props as [|[k e] props IH]; intros table H.
  - by injection H as <-.
  - cbn [decode_entries] in H. destruct (decode_sample e); [|done].
    destruct (decode_entries props) as [table'|]; [|done].
    injection H as <-. cbn. f_equal. by apply IH.
Qed.

Lemma decode_table_Some v table :
  decode_table v = Some table →
  ∃ props, v = VObj props ∧ NoDup props.*1
           ∧ decode_entries props = Some table ∧ table.*1 = props.*1.
Proof.
  unfold decode_table. destruct v as [| | | | | |props]; try done.
  case_bool_decide; [|done]. intros Hdec. exists props.
  repeat (split; [done|]). by apply decode_entries_keys.
Qed.

Lemma spec_reconcile_ids s table :
  action_id <$> spec_reconcile s table
  = filter (λ id, id ≠ myId s) table.*1.
Proof.
  induction table as [|[k c] table IH]; [done|].
  rewrite spec_reconcile_cons. cbn [fmap list_fmap fst].
  rewrite filter_cons. destruct (String.eqb_spec k (myId s)).
  - by case_decide.
  - case_decide; [|done]. cbn. f_equal; [|done].
    unfold spec_action. by repeat case_match.
Qed.

Lemma reconcile_refines s v table :
  decode_table v = Some table →
  (∀ id, id ∈ table.*1 → id ≠ myId s → inherited id = false) →
  registry_ok s →
  onmessage (JSON v) s = for_of (spec_reconcile s table) perform s
  ∧ result (onmessage (JSON v) s) = Normal tt
  ∧ dom (players (final (onmessage (JSON v) s)))
    = dom (players s) ∪ (list_to_set table.*1 ∖ {[myId s]}).
Proof.
  intros (props & -> & Hnd & Hdec & Hkeys)%decode_table_Some Hinh Hok.
  rewrite onmessage_JSON. cbn [nullish own_props]. rewrite Hkeys in *.
  apply for_of_refines; try done.
  intros k e Hin. unfold get_prop. cbn [own_props].
  by apply own_lookup_elem.
Qed.

(** In a session, a step emits calls on sprites, and [update] at most one
    message: the sample of the local sprite as the step leaves it. *)
Lemma step_trace s e ef :
  in_session s → ef ∈ trace (step e s) →
  is_Some (effect_handle ef)
  ∨ (e = tick ∧ moving s = true
     ∧ ∃ sp, local_sprite (final (step e s)) = Some sp ∧ sprite_good sp
             ∧ ef = ws_send (sample_message (myId s) sp)).
Proof.
  intros [Hs _]%in_session_ok.
  destruct e as [data|key has get| |code down|h x y vx vy|h f];
    [|cbn [step]..].
  - rewrite step_message. destruct (wsClient s).
    + intros He. left.
      destruct (within_trace _ _ _ _ (within_onmessage data s) ef He)
        as (h & -> & _). by eexists.
    + by intros ?%elem_of_nil.
  - by intros ?%elem_of_nil.
  - destruct (update_cases s Hs)
      as [(_ & _ & ->)|(h & sp & Hk & Hsp & Hg & ->)];
      [by intros ?%elem_of_nil|].
    scene_simpl. unfold tick_trace.
    destruct (steer_ok s sp); [|by intros ?%elem_of_nil].
    unfold sent. destruct (moving s) eqn:Hm; [|by intros ?%elem_of_nil].
    destruct (wsClient s); [|by intros ?%elem_of_nil].
    intros ->%list_elem_of_singleton. right. do 2 (split; [done|]).
    exists (steer s sp). split; [|split; [by apply sprite_good_steer|done]].
    unfold local_sprite. scene_simpl. rewrite Hk. cbn.
    by erewrite lookup_insert_sprite.
  - by intros ?%elem_of_nil.
  - by intros ?%elem_of_nil.
  - by intros ?%elem_of_nil.
Qed.

(** ** Velocity after a tick *)







(** * The statements of the specification *)

(** C1.  The three-way rule is what the handler attempts, and it misses
    the ids that a plain object inherits: [playerId in this.players] is
    true for ["toString"] although no such player was seen.  On the
    well-formed table [{"toString": {x: 1, y: 2, frame: 3}}], with an
    empty remote registry, the rule asks for [Create]; the handler makes
    no call, registers nothing and ends in a [TypeError]. *)
Lemma reconcile_inherited_id :
  decode_table (table_json [("toString", coords 1 2 3)])
  = Some [("toString", coords 1 2 3)]
  ∧ spec_reconcile scene_C [("toString", coords 1 2 3)]
    = [Create "toString" (coords 1 2 3)]
  ∧ onmessage (JSON (table_json [("toString", coords 1 2 3)])) scene_C
    = Outcome scene_C [] (Throw TypeError).
Proof. repeat split; vm_compute; reflexivity. Qed.

Lemma trace_bind_nil {A B} (m : M A) (f : A → M B) s :
  trace (m s) ≠ [] → trace (bind m f s) ≠ [].
Proof.
  unfold bind. destruct (m s) as [s1 t1 [a|e]]; [|done].
  destruct (f a s1) as [s2 t2 r]. cbn [trace]. by destruct t1.
Qed.

(** The loop makes no call exactly when there is no key but the local
    id, or the entry of the first other key cannot be applied. *)
Lemma for_of_silent pc ks : ∀ s,
  registry_ok s →
  (trace (for_of ks (onmessage_entry pc) s) = []
   ↔ match List.filter (λ k, negb (String.eqb k (myId s))) ks with
     | [] => true
     | k :: _ =>
         nullish (get_prop pc k)
         || match players s !! k with
            | Some _ => false
            | None => inherited k
            end
     end = true)
  ∧ (trace (for_of ks (onmessage_entry pc) s) = [] →
     final (for_of ks (onmessage_entry pc) s) = s
     ∧ result (for_of ks (onmessage_entry pc) s)
       = match List.filter (λ k, negb (String.eqb k (myId s))) ks with
         | [] => Normal tt
         | _ :: _ => Throw TypeError
         end).
Proof.
  induction ks as [|k ks IH]; intros s Hok; [done|].
  cbn [for_of List.filter]. destruct (String.eqb k (myId s)) eqn:Hme.
  - erewrite bind_run by (by apply entry_local). rewrite prepend_nil.
    cbn [negb]. by apply IH.
  - cbn [negb]. destruct (nullish (get_prop pc k)) eqn:Hc.
    { by erewrite bind_throws by (by apply entry_nullish). }
    cbn [orb]. pose proof (entry_known_eq pc k s Hme Hc) as He.
    unfold entry_known in He.
    destruct (players s !! k) as [h|] eqn:Hk.
    + assert (is_Some (sprites s !! h)) as [sp Hsp].
      { apply lookup_lt_is_Some. by apply Hok in Hk. }
      rewrite Hsp in He.
      assert (trace (bind (onmessage_entry pc k)
                       (λ _, for_of ks (onmessage_entry pc)) s) ≠ []).
      { apply trace_bind_nil. rewrite He.
        by destruct (String.eqb (Texture.key _) _); cbn [trace]. }
      split; [split; [done|discriminate]|done].
    + destruct (inherited k).
      { by rewrite (bind_throws _ _ _ _ _ _ He). }
      assert (trace (bind (onmessage_entry pc k)
                       (λ _, for_of ks (onmessage_entry pc)) s) ≠ []).
      { apply trace_bind_nil. rewrite He. by cbn [trace]. }
      split; [split; [done|discriminate]|done].
Qed.

(** C2 (amended).  A message is dropped, that is, the handler makes no
    call, exactly when its text is not JSON, its value is [null], it has
    no key but the local id, or the entry of its first other key cannot
    be applied (it is [null], or the key is an inherited name that is not
    in the registry); so is every malformed message of these kinds.  A
    dropped message leaves the scene, the registry with it, as it was,
    and the next messages are handled as if it had not arrived; the
    handler ends in an uncaught [SyntaxError] on a text that is not JSON,
    returns when there is no key but the local id, and ends in an
    uncaught [TypeError] otherwise.  Any other message, malformed or not,
    is applied from its first entry on: calls are made. *)
Theorem undecodable_message_dropped s data :
  registry_ok s →
  (trace (onmessage data s) = [] ↔ dropped s data = true)
  ∧ (dropped s data = true →
     final (onmessage data s) = s
     ∧ (∀ evs, run (message data :: evs) s = run evs s)
     ∧ result (onmessage data s)
       = match data with
         | NotJSON => Throw SyntaxError
         | JSON v =>
             if nullish v then Throw TypeError
             else match remote_keys s data with
                  | [] => Normal tt
                  | _ :: _ => Throw TypeError
                  end
         end)
  ∧ (dropped s data = false → trace (onmessage data s) ≠ []).
Proof.
  intros Hok.
  assert (Hrun : final (onmessage data s) = s → trace (onmessage data s) = [] →
                 ∀ evs, run (message data :: evs) s = run evs s).
  { intros Hf Ht evs. cbn [run]. rewrite step_message.
    destruct (wsClient s); [|by destruct (run evs s)].
    destruct (onmessage data s) as [s1 t1 r1]. cbn [final trace] in *.
    subst. by destruct (run evs s). }
  destruct data as [|v].
  { cbn [dropped]. split; [done|]. split; [|done]. intros _.
    split; [done|]. split; [by apply Hrun|done]. }
  unfold dropped, remote_keys, payload_keys in *. revert Hrun.
  rewrite onmessage_JSON. destruct (nullish v) eqn:Hv; cbn [orb].
  { intros Hrun. split; [done|]. split; [|done]. intros _.
    split; [done|]. split; [by apply Hrun|done]. }
  intros Hrun.
  destruct (for_of_silent v (own_props v).*1 s Hok) as [Hiff Hdrop].
  split; [done|]. split.
  - intros Hd%Hiff. destruct (Hdrop Hd) as [Hf Hr].
    split; [done|]. split; [by apply Hrun|done].
  - intros Hd Ht%Hiff. congruence.
Qed.

Lemma undecodable_message_dropped_example :
  malformed (JSON (VObj [("B", VNull); ("A", sample_json (coords 1 2 3))]))
  = true
  ∧ trace (onmessage
             (JSON (VObj [("B", VNull); ("A", sample_json (coords 1 2 3))]))
             scene_CA) = []
  ∧ final (onmessage
             (JSON (VObj [("B", VNull); ("A", sample_json (coords 1 2 3))]))
             scene_CA) = scene_CA
  ∧ result (onmessage
              (JSON (VObj [("B", VNull); ("A", sample_json (coords 1 2 3))]))
              scene_CA) = Throw TypeError.
Proof.
  destruct (undecodable_message_dropped scene_CA
              (JSON (VObj [("B", VNull); ("A", sample_json (coords 1 2 3))])))
    as (H1 & H2 & _).
  - apply (running_ok scene_CA), session_running.
  - destruct H2 as (H2 & _ & H3); [vm_compute; reflexivity|].
    split; [vm_compute; reflexivity|].
    split; [apply H1; vm_compute; reflexivity|].
    split; [exact H2|]. etrans; [exact H3|]. vm_compute. reflexivity.
Defined.

(** The claim as stated fails on a payload that is JSON but no table:
    [{"A": {}}] is applied, a sprite is made for A and registered. *)
Lemma malformed_entry_applied :
  decode_table (VObj [("A", VObj [])]) = None
  ∧ players scene_C !! "A" = None
  ∧ trace (onmessage (JSON (VObj [("A", VObj [])])) scene_C)
    = [add_sprite VUndefined VUndefined "player" VUndefined 1]
  ∧ players (final (onmessage (JSON (VObj [("A", VObj [])])) scene_C)) !! "A"
    = Some 1.
Proof. repeat split; vm_compute; reflexivity. Qed.

Lemma within_untouched K s s' t id h :
  within K s s' t → registry_ok s → registry_inj s →
  players s !! id = Some h → ¬ K id ∨ id = myId s →
  players s' !! id = Some h
  ∧ sprites s' !! h = sprites s !! h
  ∧ ∀ e, e ∈ t → effect_handle e ≠ Some h.
Proof.
  intros F Hok Hinj Hid HK.
  assert (Hlt : h < length (sprites s)) by by apply Hok in Hid.
  assert (Hother : ∀ k, K k → k ≠ myId s → players s !! k ≠ Some h).
  { intros k Hk Hne Hk'. assert (k = id) as -> by by eapply Hinj.
    by destruct HK. }
  split; [by rewrite (within_players _ _ _ _ F)|].
  split; [by apply (within_sprites _ _ _ _ F)|].
  intros e He Heh.
  destruct (within_trace _ _ _ _ F e He) as (h' & Hh' & Hk).
  assert (h' = h) as -> by congruence.
  destruct (Hk Hlt) as (k & HKk & Hne & Hk'). by eapply Hother.
Qed.

(** C3.  Whatever the payload, the handler produces no action for the
    local id: its registry entry and its sprite are as before, and no
    call of the handler is on that sprite or returns it. *)
Theorem self_exclusion s data :
  registry_ok s → registry_inj s →
  myId (final (onmessage data s)) = myId s
  ∧ players (final (onmessage data s)) !! myId s = players s !! myId s
  ∧ local_sprite (final (onmessage data s)) = local_sprite s
  ∧ ∀ e h, e ∈ trace (onmessage data s) →
           players s !! myId s = Some h → effect_handle e ≠ Some h.
Proof.
  intros Hok Hinj. pose proof (within_onmessage data s) as F.
  split; [apply (within_fields _ _ _ _ F)|].
  split; [apply (within_players _ _ _ _ F); by right|].
  split; [by eapply local_sprite_within|].
  intros e h He Hh.
  by eapply (within_untouched _ _ _ _ _ _ F); [..|right|].
Qed.

Lemma self_exclusion_example :
  players
    (final (onmessage
              (JSON (table_json [("C", coords 1 2 3); ("B", coords 4 5 6)]))
              scene_CA)) !! "C"
  = Some 0
  ∧ local_sprite
      (final (onmessage
                (JSON (table_json [("C", coords 1 2 3); ("B", coords 4 5 6)]))
                scene_CA))
    = local_sprite scene_CA.
Proof.
  destruct (self_exclusion scene_CA
              (JSON (table_json [("C", coords 1 2 3); ("B", coords 4 5 6)])))
    as (H1 & H2 & H3 & H4).
  - apply (running_ok scene_CA), session_running.
  - apply (running_ok scene_CA), session_running.
  - split; [|done]. etrans; [exact H2|]. vm_compute. reflexivity.
Defined.

(** C4.  An id that is in the registry and not in the received payload
    is left untouched: its entry and its sprite are as before and no call
    of the handler is on that sprite; and no id leaves the registry. *)
Theorem absent_ids_untouched s data id h :
  registry_ok s → registry_inj s →
  players s !! id = Some h → id ∉ payload_keys data →
  players (final (onmessage data s)) !! id = Some h
  ∧ sprites (final (onmessage data s)) !! h = sprites s !! h
  ∧ (∀ e, e ∈ trace (onmessage data s) → effect_handle e ≠ Some h)
  ∧ dom (players s) ⊆ dom (players (final (onmessage data s))).
Proof.
  intros Hok Hinj Hid Hkeys. pose proof (within_onmessage data s) as F.
  destruct (within_untouched _ _ _ _ id h F Hok Hinj Hid) as (H1 & H2 & H3);
    [by left|].
  repeat (split; [done|]).
  intros k Hk%elem_of_dom. by apply elem_of_dom, (within_dom _ _ _ _ F).
Qed.

Lemma absent_ids_untouched_example :
  players
    (final (onmessage (JSON (table_json [("B", coords 4 5 6)])) scene_CA))
    !! "A" = Some 1
  ∧ sprites
      (final (onmessage (JSON (table_json [("B", coords 4 5 6)])) scene_CA))
      !! 1 = sprites scene_CA !! 1.
Proof.
  destruct (absent_ids_untouched scene_CA
              (JSON (table_json [("B", coords 4 5 6)])) "A" 1)
    as (H1 & H2 & _).
  - apply (running_ok scene_CA), session_running.
  - apply (running_ok scene_CA), session_running.
  - vm_compute. reflexivity.
  - intros Hin. vm_compute in Hin.
    apply elem_of_cons in Hin as [Hin|Hin]; [discriminate Hin|].
    by apply elem_of_nil in Hin.
  - by split.
Defined.

Lemma update_in_play s :
  running s →
  ∃ h sp ws,
    players s !! myId s = Some h ∧ sprites s !! h = Some sp
    ∧ sprite_good sp ∧ wsClient s = Some ws
    ∧ update s
      = Outcome (set_sprites (<[h := steer s sp]> (sprites s)) s)
                (tick_trace s sp) (tick_result s sp).
Proof.
  intros (Hs & [ws Hws] & [sp0 Hl])%running_ok.
  destruct (update_cases s Hs) as [(Hk & _)|(h & sp & Hk & Hsp & Hg & Hu)].
  - unfold local_sprite in Hl. by rewrite Hk in Hl.
  - by exists h, sp, ws.
Qed.










Lemma client_message_sample id sp :
  sprite_good sp → client_message id (sample_message id sp).
Proof.
  intros (_ & [x Hx] & [y Hy]).
  exists x, y, (Frame.name_value (Sprite.frame sp)).
  unfold sample_message. rewrite Hx, Hy. split; [done|].
  unfold Frame.name_value. destruct (Frame.name _); [left|right]; by eexists.
Qed.

(** C7.  In a session, every message given to the socket is sent by
    [update], in a tick where an arrow key is down, and is one object
    [{ id, x, y, frame }] whose [id] is the local participant's, whose
    [x] and [y] are numbers and whose [frame] is a number or a string. *)
Theorem sent_message_shape s e msg :
  in_session s → ws_send msg ∈ trace (step e s) →
  e = tick ∧ moving s = true ∧ client_message (myId s) msg.
Proof.
  intros Hs Hin.
  destruct (step_trace s e _ Hs Hin)
    as [[h Hh]|(-> & Hm & sp & _ & Hg & Heq)]; [done|].
  injection Heq as ->. repeat split; [done|]. by apply client_message_sample.
Qed.

Lemma sent_message_shape_example :
  client_message "C"
    (VObj [("id", VStr "C"); ("x", VNum 48%float); ("y", VNum 48%float);
           ("frame", VNum 8%float)]).
Proof.
  refine (proj2 (proj2 (sent_message_shape scene_C_left tick _ _ _))).
  - right. apply session_running.
  - vm_compute. apply list_elem_of_singleton. reflexivity.
Defined.





(** C9.  The key set does not always grow by the non-local ids of the
    table: on the well-formed table [{"toString": {x: 1, y: 2, frame: 3}}]
    the handler throws at the inherited name, and the id ["toString"], not
    the local one, has no entry afterwards. *)
Lemma registry_keys_inherited_id :
  decode_table (table_json [("toString", coords 1 2 3)])
  = Some [("toString", coords 1 2 3)]
  ∧ players
      (final (onmessage (JSON (table_json [("toString", coords 1 2 3)]))
                scene_C)) !! "toString" = None
  ∧ "toString" ∈ ((list_to_set [("toString", coords 1 2 3)].*1 : gset string)
                  ∖ {[myId scene_C]}).
Proof.
  split; [vm_compute; reflexivity|]. split; [vm_compute; reflexivity|].
  apply elem_of_difference. split.
  - apply elem_of_list_to_set. cbn. by left.
  - intros H%elem_of_singleton. vm_compute in H. discriminate H.
Qed.

(** C10 (amended).  In a session, the [frame] field of every message
    given to the socket is the name of the frame the local sprite shows.
    For a frame of a sprite sheet that name is the index of the frame, a
    number, and the object sent is then a sample as received tables carry
    them, with the [x] and [y] of the sprite and that index as [frame].
    The name is a string only for a frame that has a string for name, as
    the base frame of a texture has, and then the object is no such
    sample. *)
Theorem sent_frame_is_name s e msg :
  in_session s → ws_send msg ∈ trace (step e s) →
  ∃ sp x y,
    local_sprite (final (step e s)) = Some sp
    ∧ Sprite.x sp = VNum x ∧ Sprite.y sp = VNum y
    ∧ match Frame.name (Sprite.frame sp) with
      | Frame.Index i =>
          get_prop msg "frame" = VNum i
          ∧ decode_sample msg
            = Some {| ICoords.x := x; ICoords.y := y; ICoords.frame := i |}
      | Frame.Name k =>
          get_prop msg "frame" = VStr k ∧ decode_sample msg = None
      end.
Proof.
  intros Hs Hin.
  destruct (step_trace s e _ Hs Hin)
    as [[h Hh]|(-> & Hm & sp & Hl & (_ & [x Hx] & [y Hy]) & Heq)]; [done|].
  injection Heq as ->. exists sp, x, y. do 3 (split; [done|]).
  unfold decode_sample, sample_message, Frame.name_value.
  destruct (Frame.name (Sprite.frame sp)); cbn; by rewrite Hx, Hy.
Qed.

Lemma sent_frame_is_name_example :
  ∃ sp, local_sprite (final (step tick scene_C_left)) = Some sp
        ∧ Frame.name (Sprite.frame sp) = Frame.Index 8%float
        ∧ decode_sample
            (VObj [("id", VStr "C"); ("x", VNum 48%float);
                   ("y", VNum 48%float); ("frame", VNum 8%float)])
          = Some (coords 48 48 8).
Proof.
  destruct (sent_frame_is_name scene_C_left tick
              (VObj [("id", VStr "C"); ("x", VNum 48%float);
                     ("y", VNum 48%float); ("frame", VNum 8%float)]))
    as (sp & x & y & H1 & _).
  - right. apply session_running.
  - vm_compute. apply list_elem_of_singleton. reflexivity.
  - exists sp. split; [exact H1|].
    assert (Some sp = local_sprite (final (step tick scene_C_left))) as E
      by (symmetry; exact H1).
    vm_compute in E. injection E as ->. split; reflexivity.
Defined.

(** The claim as stated fails on the loaded sprite sheet: with the left
    key down the message carries the index 8 of the frame shown, a
    number, and it is a sample as received tables carry them. *)
Lemma sent_frame_is_index :
  running scene_C_left
  ∧ trace (step tick scene_C_left)
    = [ws_send (VObj [("id", VStr "C"); ("x", VNum 48%float);
                      ("y", VNum 48%float); ("frame", VNum 8%float)])]
  ∧ decode_sample
      (VObj [("id", VStr "C"); ("x", VNum 48%float);
             ("y", VNum 48%float); ("frame", VNum 8%float)])
    = Some (coords 48 48 8)
  ∧ get_prop
      (VObj [("id", VStr "C"); ("x", VNum 48%float);
             ("y", VNum 48%float); ("frame", VNum 8%float)])
      "frame" = VNum 8%float.
Proof.
  split; [apply session_running|]. repeat split; vm_compute; reflexivity.
Qed.

(** * Further properties of the scene *)

(** X1.  For every received well-formed state table none of whose
    non-local ids names a property that plain objects inherit from
    [Object.prototype], and for every registry, the handler ends normally
    and does exactly what performing the actions of the three-way rule
    does, in the order of the table: one action for each non-local id,
    [Create] if the id is not in the registry, [Replace] if its sprite
    shows the missing texture, [Update] otherwise; afterwards every
    non-local id of the table is in the registry. *)
Theorem reconcile_three_way s v table :
  decode_table v = Some table →
  (∀ id, id ∈ table.*1 → id ≠ myId s → inherited id = false) →
  registry_ok s →
  onmessage (JSON v) s = for_of (spec_reconcile s table) perform s
  ∧ result (onmessage (JSON v) s) = Normal tt
  ∧ action_id <$> spec_reconcile s table
    = filter (λ id, id ≠ myId s) table.*1
  ∧ NoDup table.*1
  ∧ ∀ id, id ∈ table.*1 → id ≠ myId s →
          is_Some (players (final (onmessage (JSON v) s)) !! id).
Proof.
  intros Hdec Hinh Hok.
  destruct (reconcile_refines s v table Hdec Hinh Hok) as (H1 & H2 & H3).
  split; [done|]. split; [done|]. split; [apply spec_reconcile_ids|].
  split.
  - apply decode_table_Some in Hdec as (props & _ & Hnd & _ & ->). done.
  - intros id Hin Hne. apply elem_of_dom. rewrite H3.
    apply elem_of_union_r, elem_of_difference. split.
    + by apply elem_of_list_to_set.
    + by intros ->%elem_of_singleton.
Qed.

(** The scene of the specification's example: the registry knows A, the
    table has A and B, the local participant is C. *)
Lemma reconcile_three_way_example :
  spec_reconcile scene_CA [("A", coords 1 2 3); ("B", coords 4 5 6)]
  = [Update "A" (coords 1 2 3); Create "B" (coords 4 5 6)]
  ∧ trace (onmessage
             (JSON (table_json [("A", coords 1 2 3); ("B", coords 4 5 6)]))
             scene_CA)
    = [sprite_setX 1 (VNum 1%float); sprite_setY 1 (VNum 2%float);
       sprite_setFrame 1 (VNum 3%float);
       add_sprite (VNum 4%float) (VNum 5%float) "player" (VNum 6%float) 2]
  ∧ is_Some (players
               (final (onmessage
                         (JSON (table_json [("A", coords 1 2 3);
                                            ("B", coords 4 5 6)]))
                         scene_CA)) !! "A")
  ∧ is_Some (players
               (final (onmessage
                         (JSON (table_json [("A", coords 1 2 3);
                                            ("B", coords 4 5 6)]))
                         scene_CA)) !! "B").
Proof.
  destruct (reconcile_three_way scene_CA
              (table_json [("A", coords 1 2 3); ("B", coords 4 5 6)])
              [("A", coords 1 2 3); ("B", coords 4 5 6)])
    as (H1 & H2 & H3 & H4 & H5).
  - vm_compute. reflexivity.
  - intros id Hin _.
    repeat (apply elem_of_cons in Hin as [->|Hin]; [reflexivity|]).
    by apply elem_of_nil in Hin.
  - apply (running_ok scene_CA), session_running.
  - split; [vm_compute; reflexivity|].
    split; [vm_compute; reflexivity|].
    split; (apply H5; [|intros H; vm_compute in H; discriminate H]).
    + apply elem_of_cons. by left.
    + apply elem_of_cons. right. apply elem_of_cons. by left.
Defined.

Lemma run_messages_dom datas : ∀ s,
  dom (players s) ⊆ dom (players (run (message <$> datas) s).1).
Proof.
  induction datas as [|data datas IH]; intros s; [done|].
  cbn [fmap list_fmap run]. rewrite step_message.
  assert (dom (players s)
          ⊆ dom (players (final (match wsClient s with
                                  | Some _ => onmessage data s
                                  | None => Outcome s [] (Normal tt)
                                  end)))) as Hstep.
  { destruct (wsClient s); [|done].
    intros k Hk%elem_of_dom.
    by apply elem_of_dom, (within_dom _ _ _ _ (within_onmessage data s)). }
  destruct (match wsClient s with Some _ => _ | None => _ end)
    as [s1 t1 r1]. cbn [final] in Hstep.
  specialize (IH s1). destruct (run (message <$> datas) s1) as [s2 t2].
  cbn [fst] in *. by etrans.
Qed.

(** X2.  After a well-formed received table none of whose non-local ids
    names a property that plain objects inherit from [Object.prototype],
    the key set of the registry is the previous one united with the ids
    of the table other than the local one, so every non-local id of the
    table has an entry; and over any sequence of received messages,
    well-formed or not, the key set never shrinks. *)
Theorem registry_keys_grow s v table datas :
  decode_table v = Some table →
  (∀ id, id ∈ table.*1 → id ≠ myId s → inherited id = false) →
  registry_ok s →
  dom (players (final (onmessage (JSON v) s)))
  = dom (players s) ∪ (list_to_set table.*1 ∖ {[myId s]})
  ∧ (∀ id, id ∈ table.*1 → id ≠ myId s →
           is_Some (players (final (onmessage (JSON v) s)) !! id))
  ∧ dom (players s) ⊆ dom (players (run (message <$> datas) s).1).
Proof.
  intros Hdec Hinh Hok.
  destruct (reconcile_refines s v table Hdec Hinh Hok) as (_ & _ & Hdom).
  split; [done|]. split; [|apply run_messages_dom].
  intros id Hin Hne. apply elem_of_dom. rewrite Hdom.
  apply elem_of_union_r, elem_of_difference. split.
  - by apply elem_of_list_to_set.
  - by intros ->%elem_of_singleton.
Qed.

Lemma registry_keys_grow_example :
  dom (players
         (final (onmessage
                   (JSON (table_json [("A", coords 1 2 3);
                                      ("B", coords 4 5 6);
                                      ("C", coords 7 8 9)]))
                   scene_CA)))
  = dom (players scene_CA) ∪ ({["A"; "B"; "C"]} ∖ {["C"]})
  ∧ is_Some (players
               (final (onmessage
                         (JSON (table_json [("A", coords 1 2 3);
                                            ("B", coords 4 5 6);
                                            ("C", coords 7 8 9)]))
                         scene_CA)) !! "B").
Proof.
  destruct (registry_keys_grow scene_CA
              (table_json [("A", coords 1 2 3); ("B", coords 4 5 6);
                           ("C", coords 7 8 9)])
              [("A", coords 1 2 3); ("B", coords 4 5 6); ("C", coords 7 8 9)]
              [])
    as (H1 & H2 & _).
  - vm_compute. reflexivity.
  - intros id Hin _.
    repeat (apply elem_of_cons in Hin as [->|Hin]; [reflexivity|]).
    by apply elem_of_nil in Hin.
  - apply (running_ok scene_CA), session_running.
  - split.
    + rewrite H1. by f_equal.
    + apply H2; [|intros H; vm_compute in H; discriminate H].
      apply elem_of_cons. right. apply elem_of_cons. by left.
Defined.

(** X3.  In every scene of a session the registry holds sprites of the
    store and no sprite under two ids, the local sprite, once made, has
    a body and numeric coordinates, and the socket has been opened. *)
Theorem session_invariant s :
  in_session s →
  registry_ok s ∧ registry_inj s ∧ local_ok s ∧ is_Some (wsClient s).
Proof. intros [(H1 & H2 & H3) H4]%in_session_ok. done. Qed.

Lemma session_invariant_example :
  registry_ok scene_CA ∧ registry_inj scene_CA ∧ local_ok scene_CA.
Proof.
  destruct (session_invariant scene_CA) as (H1 & H2 & H3 & _).
  - right. apply session_running.
  - done.
Defined.

(** ** Loops *)

Lemma result_bind {A B} (m : M A) (f : A → M B) s :
  result (bind m f s)
  = match result (m s) with
    | Normal a => result (f a (final (m s)))
    | Throw e => Throw e
    end.
Proof.
  unfold bind. destruct (m s) as [s1 t1 [a|e]]; [|done].
  cbn [final result]. by destruct (f a s1).
Qed.

Lemma bind_normal {A B} (m : M A) (f : A → M B) s b :
  result (bind m f s) = Normal b →
  ∃ a, m s = Outcome (final (m s)) (trace (m s)) (Normal a)
       ∧ result (f a (final (m s))) = Normal b.
Proof.
  rewrite result_bind. destruct (m s) as [s1 t1 [a|e]]; [|done].
  cbn [final trace result]. intros H. by exists a.
Qed.

Lemma bind_cong {A B} (m m' : M A) (f : A → M B) s :
  m s = m' s → bind m f s = bind m' f s.
Proof. unfold bind. by intros ->. Qed.

Lemma for_of_app {A} (l1 l2 : list A) body s :
  for_of (l1 ++ l2) body s
  = bind (for_of l1 body) (λ _, for_of l2 body) s.
Proof.
  revert s. induction l1 as [|k l1 IH]; intros s.
  - cbn [app for_of]. erewrite bind_run by reflexivity.
    by rewrite prepend_nil.
  - cbn [app for_of]. rewrite bind_assoc.
    destruct (body k s) as [s1 t1 [[]|e]] eqn:E.
    + rewrite !(bind_run _ _ _ _ _ _ E). by rewrite IH.
    + by rewrite !(bind_throws _ _ _ _ _ _ E).
Qed.

Lemma for_of_ext {A} (ks : list A) body1 body2 s :
  (∀ k s', k ∈ ks → body1 k s' = body2 k s') →
  for_of ks body1 s = for_of ks body2 s.
Proof.
  revert s. induction ks as [|k ks IH]; intros s H; [done|].
  cbn [for_of]. unfold bind. rewrite H by by left.
  destruct (body2 k s) as [s1 t1 [[]|e]]; [|done].
  rewrite IH; [done|]. intros k' s' Hin. apply H. by right.
Qed.

(** An invariant of the loop body is one of the loop. *)
Lemma for_of_invariant {A} (P : GameScene → Prop) (Q : effect → Prop)
    (ks : list A) body s :
  (∀ k s', k ∈ ks → P s' →
           P (final (body k s')) ∧ ∀ e, e ∈ trace (body k s') → Q e) →
  P s →
  P (final (for_of ks body s)) ∧ ∀ e, e ∈ trace (for_of ks body s) → Q e.
Proof.
  revert s. induction ks as [|k ks IH]; intros s H Hs.
  - split; [done|]. by intros e ?%elem_of_nil.
  - cbn [for_of]. unfold bind.
    destruct (H k s) as [H1 H2]; [by left|done|].
    destruct (body k s) as [s1 t1 [[]|e]]; [|done].
    destruct (IH s1) as [H3 H4]; [|done|].
    { intros k' s' Hin. apply H. by right. }
    destruct (for_of ks body s1) as [s2 t2 r2]. cbn [final trace] in *.
    split; [done|]. intros e [He|He]%elem_of_app; eauto.
Qed.

Lemma entry_ext pc pc' k s :
  get_prop pc k = get_prop pc' k →
  onmessage_entry pc k s = onmessage_entry pc' k s.
Proof. intros H. unfold onmessage_entry. by rewrite H. Qed.

Lemma entry_myId pc k s : myId (final (onmessage_entry pc k s)) = myId s.
Proof. apply (within_fields _ _ _ _ (within_entry (λ _, True) pc k s I)). Qed.

(** ** When the handler ends normally *)

Lemma entry_normal_iff pc k s :
  registry_ok s → k ≠ myId s →
  result (onmessage_entry pc k s) = Normal tt
  ↔ nullish (get_prop pc k) = false
    ∧ (players s !! k = None → inherited k = false).
Proof.
  intros Hok Hne%eqb_myId.
  destruct (nullish (get_prop pc k)) eqn:Hc.
  - rewrite entry_nullish by done. naive_solver.
  - rewrite entry_known_eq by done. unfold entry_known.
    destruct (players s !! k) as [h|] eqn:Hk.
    + assert (is_Some (sprites s !! h)) as [sp ->].
      { apply lookup_lt_is_Some. by apply Hok in Hk. }
      destruct (String.eqb _ "__MISSING"); naive_solver.
    + destruct (inherited k); naive_solver.
Qed.

Lemma for_of_normal_iff pc ks : ∀ s,
  registry_ok s → NoDup ks →
  result (for_of ks (onmessage_entry pc) s) = Normal tt
  ↔ ∀ k, k ∈ ks → k ≠ myId s →
         nullish (get_prop pc k) = false
         ∧ (players s !! k = None → inherited k = false).
Proof.
  induction ks as [|k ks IH]; intros s Hok Hnd.
  - split; [|done]. by intros _ k ?%elem_of_nil.
  - apply NoDup_cons in Hnd as [Hk Hnd]. cbn [for_of]. rewrite result_bind.
    pose proof (within_entry (λ k', k' = k) pc k s eq_refl) as F.
    destruct (decide (k = myId s)) as [Heq|Hne].
    + rewrite entry_local by (by apply String.eqb_eq). cbn [result final].
      rewrite IH by done. split.
      * intros H k' [->|Hin]%elem_of_cons; [done|]. by apply H.
      * intros H k' Hin. apply H. by right.
    + pose proof (entry_normal_iff pc k s Hok Hne) as Hiff.
      destruct (onmessage_entry pc k s) as [s1 t1 [[]|e]];
        cbn [final trace result] in *.
      * rewrite IH by (done || by apply (within_ok _ _ _ _ F)).
        assert (Hid : myId s1 = myId s) by apply F. rewrite Hid.
        assert (Hp : ∀ k', k' ∈ ks → players s1 !! k' = players s !! k').
        { intros k' Hin. apply (within_players _ _ _ _ F). left.
          by intros ->. }
        split.
        -- intros H k' [->|Hin]%elem_of_cons; [intros _; by apply Hiff|].
           rewrite <-Hp by done. by apply H.
        -- intros H k' Hin. rewrite Hp by done. apply H. by right.
      * split; [done|]. intros H.
        assert (@Throw unit e = Normal tt); [|done].
        apply Hiff, H; [by left|done].
Qed.

Lemma own_lookup_app_l k (l1 l2 : list (string * value)) :
  k ∈ l1.*1 → own_lookup k (l1 ++ l2) = own_lookup k l1.
Proof.
  induction l1 as [|[k' e'] l1 IH]; [by intros ?%elem_of_nil|].
  cbn [fmap list_fmap fst app own_lookup].
  destruct (String.eqb_spec k k') as [->|Hne]; [done|].
  intros [?|Hin]%elem_of_cons; [done|]. by apply IH.
Qed.

(** X4.  The handler ends normally exactly when the message is JSON that
    is not [null], no entry of a non-local id is [null] (or [undefined]),
    and no non-local id outside the registry is a name that plain objects
    inherit from [Object.prototype]; in every other case it ends in an
    uncaught exception. *)
Theorem onmessage_normal_iff s data :
  registry_ok s → NoDup (payload_keys data) →
  result (onmessage data s) = Normal tt
  ↔ ∃ v, data = JSON v ∧ nullish v = false
         ∧ ∀ k, k ∈ (own_props v).*1 → k ≠ myId s →
                nullish (get_prop v k) = false
                ∧ (players s !! k = None → inherited k = false).
Proof.
  intros Hok Hnd. destruct data as [|v].
  - split; [done|]. by intros (v & ? & _).
  - rewrite onmessage_JSON. destruct (nullish v) eqn:Hv.
    + split; [done|]. intros (v' & [= <-] & Hv' & _). congruence.
    + rewrite for_of_normal_iff by done. split.
      * intros H. by exists v.
      * by intros (v' & [= <-] & _ & H).
Qed.

Lemma onmessage_normal_iff_example :
  result (onmessage
            (JSON (table_json [("A", coords 1 2 3); ("B", coords 4 5 6)]))
            scene_CA) = Normal tt
  ∧ result (onmessage (JSON (VObj [("B", VNull)])) scene_CA) ≠ Normal tt.
Proof.
  split.
  - apply (onmessage_normal_iff scene_CA).
    + apply (running_ok scene_CA), session_running.
    + apply (bool_decide_unpack _). vm_compute. reflexivity.
    + eexists. split; [reflexivity|]. split; [reflexivity|].
      intros k Hin _.
      repeat (apply elem_of_cons in Hin as [->|Hin];
              [split; [reflexivity|]; intros _; reflexivity|]).
      by apply elem_of_nil in Hin.
  - intros H. apply (onmessage_normal_iff scene_CA) in H.
    + destruct H as (v & [= <-] & _ & H). destruct (H "B") as [Hn _].
      * apply elem_of_cons. by left.
      * intros Heq. vm_compute in Heq. discriminate Heq.
      * vm_compute in Hn. discriminate Hn.
    + apply (running_ok scene_CA), session_running.
    + apply (bool_decide_unpack _). vm_compute. reflexivity.
Defined.

(** X5.  An entry that makes the handler throw ends the loop where it
    stands: with a [null] entry, or an inherited name outside the
    registry, at a non-local id, the scene and the calls are those of the
    entries before it, nothing is undone and no entry after it is looked
    at. *)
Theorem failing_entry_ends_loop s props1 k e props2 :
  NoDup (props1 ++ (k, e) :: props2).*1 → k ≠ myId s →
  nullish e = true ∨ (players s !! k = None ∧ inherited k = true) →
  final (onmessage (JSON (VObj (props1 ++ (k, e) :: props2))) s)
  = final (onmessage (JSON (VObj props1)) s)
  ∧ trace (onmessage (JSON (VObj (props1 ++ (k, e) :: props2))) s)
    = trace (onmessage (JSON (VObj props1)) s)
  ∧ result (onmessage (JSON (VObj (props1 ++ (k, e) :: props2))) s)
    = match result (onmessage (JSON (VObj props1)) s) with
      | Normal _ => Throw TypeError
      | Throw err => Throw err
      end.
Proof.
  intros Hnd Hne Hbad. rewrite !onmessage_JSON. cbn [nullish own_props].
  rewrite fmap_app, for_of_app. cbn [fmap list_fmap fst].
  set (v := VObj (props1 ++ (k, e) :: props2)).
  rewrite (bind_cong _ (for_of props1.*1 (onmessage_entry (VObj props1)))).
  2:{ apply for_of_ext. intros k' s' Hin. apply entry_ext.
      unfold get_prop, v. cbn [own_props]. by apply own_lookup_app_l. }
  pose proof (within_for_of (λ k', k' ∈ props1.*1) (VObj props1) props1.*1 s)
    as F.
  destruct (for_of props1.*1 (onmessage_entry (VObj props1)) s)
    as [s1 t1 [[]|err]] eqn:E; cbn [final trace result] in *.
  2: by rewrite (bind_throws _ _ _ _ _ _ E).
  specialize (F ltac:(done)).
  rewrite (bind_run _ _ _ _ _ _ E). cbn [for_of].
  assert (Hid : myId s1 = myId s) by apply F.
  assert (Hme : String.eqb k (myId s1) = false)
    by (apply eqb_myId; by rewrite Hid).
  assert (Hget : get_prop v k = e).
  { unfold get_prop, v. cbn [own_props]. apply own_lookup_elem; [done|].
    apply elem_of_app. right. by left. }
  assert (Hthrow : onmessage_entry v k s1 = Outcome s1 [] (Throw TypeError)).
  { destruct (nullish e) eqn:Hnull.
    - apply entry_nullish; [done|]. by rewrite Hget.
    - destruct Hbad as [?|[Hk Hinh]]; [done|].
      rewrite entry_known_eq by (done || by rewrite Hget).
      unfold entry_known. rewrite (within_players _ _ _ _ F), Hk, Hinh; [done|].
      left. rewrite fmap_app in Hnd. apply NoDup_app in Hnd as (_ & Hnd & _).
      intros Hin. apply (Hnd k Hin). by left. }
  rewrite (bind_throws _ _ _ _ _ _ Hthrow). unfold prepend.
  cbn [final trace result]. by rewrite app_nil_r.
Qed.

Lemma failing_entry_ends_loop_example :
  final (onmessage
           (JSON (VObj [("B", sample_json (coords 4 5 6)); ("D", VNull);
                        ("A", sample_json (coords 1 2 3))])) scene_CA)
  = final (onmessage (JSON (VObj [("B", sample_json (coords 4 5 6))]))
             scene_CA)
  ∧ result (onmessage
              (JSON (VObj [("B", sample_json (coords 4 5 6)); ("D", VNull);
                           ("A", sample_json (coords 1 2 3))])) scene_CA)
    = Throw TypeError.
Proof.
  destruct (failing_entry_ends_loop scene_CA
              [("B", sample_json (coords 4 5 6))] "D" VNull
              [("A", sample_json (coords 1 2 3))]) as (H1 & H2 & H3).
  - apply (bool_decide_unpack _). vm_compute. reflexivity.
  - intros Heq. vm_compute in Heq. discriminate Heq.
  - left. reflexivity.
  - split; [exact H1|]. etrans; [exact H3|]. vm_compute. reflexivity.
Defined.

(** ** Where reconciliation leaves the sprites *)

Lemma player_texture_within K s s' t :
  within K s s' t → player_texture s' = player_texture s.
Proof.
  intros F. pose proof (within_fields _ _ _ _ F) as Hf.
  unfold same_fields in Hf. destruct_and!. unfold player_texture. congruence.
Qed.

Lemma shows_created k x y fr s :
  shows (created k x y fr s) k (or_zero x) (or_else y (or_zero x)) fr.
Proof.
  exists (length (sprites s)), (new_sprite x y (player_texture s) fr None).
  unfold created. scene_simpl. rewrite lookup_insert_eq.
  rewrite list_lookup_middle by done. by repeat split.
Qed.

Lemma entry_known_shows k x y fr s :
  result (entry_known k x y fr s) = Normal tt →
  shows (final (entry_known k x y fr s)) k (or_zero x) (placed_y s k x y) fr.
Proof.
  unfold entry_known, placed_y, updates, valid_handle.
  destruct (players s !! k) as [h|] eqn:Hk.
  - destruct (sprites s !! h) as [sp|] eqn:Hsp; [|done].
    destruct (String.eqb _ "__MISSING") eqn:Hm; intros _; scene_simpl.
    + apply shows_created.
    + exists h. eexists. unfold updated. scene_simpl.
      split; [done|]. erewrite lookup_insert_sprite by done.
      split; [done|]. repeat split. intros _. by apply String.eqb_neq.
  - destruct (inherited k); [done|]. intros _. apply shows_created.
Qed.

Lemma shows_within K s s' t k x y fr :
  within K s s' t → registry_ok s → registry_inj s →
  ¬ K k ∨ k = myId s →
  shows s k x y fr → shows s' k x y fr.
Proof.
  intros F Hok Hinj HK (h & sp & Hk & Hsp & Hx & Hy & Hf & Ht).
  destruct (within_untouched _ _ _ _ k h F Hok Hinj Hk HK) as (H1 & H2 & _).
  exists h, sp. split; [done|]. split; [congruence|].
  do 3 (split; [done|]). unfold sheet_loaded in *.
  by rewrite (player_texture_within _ _ _ _ F).
Qed.

Lemma updates_within K s s' t k :
  within K s s' t → registry_ok s → registry_inj s →
  ¬ K k ∨ k = myId s →
  updates s' k = updates s k.
Proof.
  intros F Hok Hinj HK. unfold updates, valid_handle.
  rewrite (within_players _ _ _ _ F) by done.
  destruct (players s !! k) as [h|] eqn:Hk; [|done].
  destruct (within_untouched _ _ _ _ k h F Hok Hinj Hk HK) as (_ & -> & _).
  done.
Qed.

Lemma for_of_shows pc ks : ∀ s,
  registry_ok s → registry_inj s → NoDup ks →
  result (for_of ks (onmessage_entry pc) s) = Normal tt →
  ∀ k, k ∈ ks → k ≠ myId s →
       shows (final (for_of ks (onmessage_entry pc) s)) k
         (or_zero (get_prop (get_prop pc k) "x"))
         (placed_y s k (get_prop (get_prop pc k) "x")
            (get_prop (get_prop pc k) "y"))
         (get_prop (get_prop pc k) "frame").
Proof.
  induction ks as [|k0 ks IH]; intros s Hok Hinj Hnd Hres k Hin Hne;
    [by apply elem_of_nil in Hin|].
  apply NoDup_cons in Hnd as [Hk0 Hnd]. cbn [for_of] in *.
  apply bind_normal in Hres as ([] & Hentry & Hres).
  pose proof (within_entry (λ k', k' = k0) pc k0 s eq_refl) as F.
  pose proof (within_for_of (λ k', k' ∈ ks) pc ks
                (final (onmessage_entry pc k0 s)) (λ _ H, H)) as F'.
  assert (Hid : myId (final (onmessage_entry pc k0 s)) = myId s) by apply F.
  rewrite (bind_run _ _ _ _ _ _ Hentry). cbn [prepend final].
  apply elem_of_cons in Hin as [->|Hin].
  - eapply shows_within; [exact F' | by apply (within_ok _ _ _ _ F)
                          | by apply (within_inj _ _ _ _ F) | by left |].
    destruct (nullish (get_prop pc k0)) eqn:Hc.
    { rewrite entry_nullish in Hentry by (done || by apply eqb_myId).
      by injection Hentry. }
    rewrite entry_known_eq in * by (done || by apply eqb_myId).
    apply entry_known_shows. by rewrite Hentry.
  - assert (Hu : placed_y (final (onmessage_entry pc k0 s)) k
                   (get_prop (get_prop pc k) "x")
                   (get_prop (get_prop pc k) "y")
                 = placed_y s k (get_prop (get_prop pc k) "x")
                     (get_prop (get_prop pc k) "y")).
    { unfold placed_y. rewrite (updates_within _ _ _ _ k F); try done.
      left. by intros ->. }
    rewrite <-Hu. apply IH; try done.
    + by apply (within_ok _ _ _ _ F).
    + by apply (within_inj _ _ _ _ F).
    + by rewrite Hid.
Qed.

Lemma decode_entries_elem props table k c :
  decode_entries props = Some table → (k, c) ∈ table →
  ∃ e, (k, e) ∈ props ∧ decode_sample e = Some c.
Proof.
  revert table. induction props as [|[k' e'] props IH]; intros table H Hin.
  - injection H as <-. by apply elem_of_nil in Hin.
  - cbn [decode_entries] in H. destruct (decode_sample e') eqn:He; [|done].
    destruct (decode_entries props) as [table'|]; [|done].
    injection H as <-. apply elem_of_cons in Hin as [[= -> ->]|Hin].
    + exists e'. split; [by left|done].
    + destruct (IH table' eq_refl Hin) as (e & H1 & H2).
      exists e. split; [by right|done].
Qed.

(** A table is shown after it was handled. *)
Lemma table_shown s v table id c :
  decode_table v = Some table →
  (∀ id, id ∈ table.*1 → id ≠ myId s → inherited id = false) →
  registry_ok s → registry_inj s →
  (id, c) ∈ table → id ≠ myId s →
  nullish (get_prop v id) = false
  ∧ get_prop (get_prop v id) "x" = VNum (ICoords.x c)
  ∧ get_prop (get_prop v id) "y" = VNum (ICoords.y c)
  ∧ get_prop (get_prop v id) "frame" = VNum (ICoords.frame c)
  ∧ shows (final (onmessage (JSON v) s)) id (VNum (ICoords.x c))
      (VNum (ICoords.y c)) (VNum (ICoords.frame c)).
Proof.
  intros Hdec Hinh Hok Hinj Hin Hne.
  destruct (reconcile_refines s v table Hdec Hinh Hok) as (_ & Hres & _).
  apply decode_table_Some in Hdec as (props & -> & Hnd & Hdec & Hkeys).
  destruct (decode_entries_elem _ _ _ _ Hdec Hin) as (e & He & Hc).
  destruct (decode_sample_Some _ _ Hc) as (Hnull & Hx & Hy & Hf).
  assert (Hget : get_prop (VObj props) id = e).
  { unfold get_prop. cbn [own_props]. by apply own_lookup_elem. }
  rewrite Hget. do 4 (split; [done|]).
  rewrite onmessage_JSON in *. cbn [nullish own_props] in *.
  assert (Hin' : id ∈ props.*1).
  { apply list_elem_of_fmap. by exists (id, e). }
  pose proof (for_of_shows (VObj props) _ s Hok Hinj Hnd Hres id Hin' Hne)
    as Hs.
  rewrite Hget, Hx, Hy, Hf in Hs. unfold placed_y in Hs.
  by destruct (updates s id).
Qed.




(** X6.  After a well-formed table was handled, every participant of the
    table but the local one is in the registry, with a sprite at the [x]
    and [y] of its sample that shows the frame [frame] of its texture, a
    loaded one if the sprite sheet is loaded. *)
Theorem reconcile_shows_samples s v table id c :
  decode_table v = Some table →
  (∀ id, id ∈ table.*1 → id ≠ myId s → inherited id = false) →
  registry_ok s → registry_inj s →
  (id, c) ∈ table → id ≠ myId s →
  ∃ h sp,
    players (final (onmessage (JSON v) s)) !! id = Some h
    ∧ sprites (final (onmessage (JSON v) s)) !! h = Some sp
    ∧ Sprite.x sp = VNum (ICoords.x c)
    ∧ Sprite.y sp = VNum (ICoords.y c)
    ∧ Sprite.frame sp
      = Texture.get (Sprite.texture sp) (VNum (ICoords.frame c))
    ∧ (sheet_loaded s → Texture.key (Sprite.texture sp) ≠ "__MISSING").
Proof.
  intros Hdec Hinh Hok Hinj Hin Hne.
  destruct (table_shown s v table id c Hdec Hinh Hok Hinj Hin Hne)
    as (_ & _ & _ & _ & h & sp & H).
  exists h, sp. destruct_and!. repeat (split; [done|]).
  unfold sheet_loaded in *.
  by rewrite (player_texture_within _ _ _ _ (within_onmessage (JSON v) s)) in *.
Qed.

Lemma reconcile_shows_samples_example :
  ∃ h sp,
    players (final (onmessage
                      (JSON (table_json [("A", coords 1 2 3);
                                         ("B", coords 4 5 6)]))
                      scene_CA)) !! "B" = Some h
    ∧ sprites (final (onmessage
                        (JSON (table_json [("A", coords 1 2 3);
                                           ("B", coords 4 5 6)]))
                        scene_CA)) !! h = Some sp
    ∧ Sprite.x sp = VNum 4%float ∧ Sprite.y sp = VNum 5%float.
Proof.
  destruct (reconcile_shows_samples scene_CA
              (table_json [("A", coords 1 2 3); ("B", coords 4 5 6)])
              [("A", coords 1 2 3); ("B", coords 4 5 6)] "B" (coords 4 5 6))
    as (h & sp & H1 & H2 & H3 & H4 & _).
  - vm_compute. reflexivity.
  - intros id Hin _.
    repeat (apply elem_of_cons in Hin as [->|Hin]; [reflexivity|]).
    by apply elem_of_nil in Hin.
  - apply (running_ok scene_CA), session_running.
  - apply (running_ok scene_CA), session_running.
  - apply elem_of_cons. right. apply elem_of_cons. by left.
  - intros H. vm_compute in H. discriminate H.
  - exists h, sp. split; [exact H1|]. split; [exact H2|].
    split; [exact H3 | exact H4].
Defined.

(** X7.  The handler does not check what it applies: for any JSON
    value on which it ends normally, every own key of the value other
    than the local id has a sprite in the registry afterwards, whose [x],
    [y] and frame are whatever the entry of that key has under ["x"],
    ["y"] and ["frame"], except that a coordinate that is [undefined] is
    stored as a number: [x] as 0, and [y] as 0 when the sprite of the key
    was updated and as the [x] stored when a sprite was made for it. *)
Theorem any_entry_applied s v k :
  registry_ok s → registry_inj s → NoDup (own_props v).*1 →
  result (onmessage (JSON v) s) = Normal tt →
  k ∈ (own_props v).*1 → k ≠ myId s →
  ∃ h sp,
    players (final (onmessage (JSON v) s)) !! k = Some h
    ∧ sprites (final (onmessage (JSON v) s)) !! h = Some sp
    ∧ Sprite.x sp
      = match get_prop (get_prop v k) "x" with
        | VUndefined => VNum 0%float
        | x => x
        end
    ∧ Sprite.y sp
      = match get_prop (get_prop v k) "y" with
        | VUndefined =>
            if updates s k then VNum 0%float
            else match get_prop (get_prop v k) "x" with
                 | VUndefined => VNum 0%float
                 | x => x
                 end
        | y => y
        end
    ∧ Sprite.frame sp
      = Texture.get (Sprite.texture sp) (get_prop (get_prop v k) "frame").
Proof.
  intros Hok Hinj Hnd Hres Hin Hne. rewrite onmessage_JSON in *.
  destruct (nullish v); [done|].
  destruct (for_of_shows v _ s Hok Hinj Hnd Hres k Hin Hne)
    as (h & sp & H1 & H2 & H3 & H4 & H5 & _).
  exists h, sp. do 2 (split; [done|]).
  split; [rewrite H3; by destruct (get_prop _ "x")|]. split; [|done].
  rewrite H4. unfold placed_y.
  destruct (updates s k), (get_prop _ "y"); try done;
    by destruct (get_prop _ "x").
Qed.

Lemma any_entry_applied_example :
  ∃ h sp,
    players (final (onmessage (JSON (VObj [("A", VObj [])])) scene_C)) !! "A"
    = Some h
    ∧ sprites (final (onmessage (JSON (VObj [("A", VObj [])])) scene_C)) !! h
      = Some sp
    ∧ Sprite.x sp = VNum 0%float ∧ Sprite.y sp = VNum 0%float.
Proof.
  destruct (any_entry_applied scene_C (VObj [("A", VObj [])]) "A")
    as (h & sp & H1 & H2 & H3 & H4 & _).
  - apply (running_ok scene_C), session_running.
  - apply (running_ok scene_C), session_running.
  - apply (bool_decide_unpack _). vm_compute. reflexivity.
  - vm_compute. reflexivity.
  - apply elem_of_cons. by left.
  - intros H. vm_compute in H. discriminate H.
  - exists h, sp. split; [exact H1|]. split; [exact H2|].
    split; [exact H3 | exact H4].
Defined.



(** ** [update] on any scene *)

Lemma with_velocity_throws s h f :
  (∀ sp, sprites s !! h = Some sp → Sprite.body sp = None) →
  with_velocity f (RSprite h) s = Outcome s [] (Throw TypeError).
Proof.
  intros H. unfold with_velocity.
  destruct (sprites s !! h) as [sp|] eqn:Hsp.
  - erewrite bind_run by (by apply deref_sprite). by rewrite (H sp).
  - by erewrite bind_throws by (by apply deref_dangling).
Qed.

Lemma update_throws s h :
  players s !! myId s = Some h →
  (∀ sp, sprites s !! h = Some sp → Sprite.body sp = None) →
  update s = Outcome s [] (Throw TypeError).
Proof.
  intros Hk Hb. unfold update. ustep. unfold players_get. ustep.
  rewrite Hk. do 2 ustep.
  destruct (pressed (leftKey s)); [|destruct (pressed (rightKey s))];
    unfold setVelocityX;
    rewrite ?bind_assoc;
    by erewrite bind_throws by (by apply with_velocity_throws).
Qed.

(** What [update] comes to: nothing, or the local sprite steered and,
    if [update] gets that far, its sample sent. *)
Lemma update_shape s :
  (final (update s) = s ∧ trace (update s) = []
   ∧ ∀ h sp, players s !! myId s = Some h → sprites s !! h = Some sp →
             Sprite.body sp = None)
  ∨ (∃ h sp, players s !! myId s = Some h ∧ sprites s !! h = Some sp
             ∧ is_Some (Sprite.body sp)
             ∧ update s
               = Outcome (set_sprites (<[h := steer s sp]> (sprites s)) s)
                         (tick_trace s sp) (tick_result s sp)).
Proof.
  destruct (players s !! myId s) as [h|] eqn:Hk.
  - destruct (sprites s !! h) as [sp|] eqn:Hsp.
    + destruct (Sprite.body sp) as [b|] eqn:Hb.
      * right. exists h, sp. repeat (split; [done|]).
        apply update_running; [done..|]. by rewrite Hb.
      * left. rewrite (update_throws s h) by (done || congruence).
        do 2 (split; [done|]). congruence.
    + left. rewrite (update_throws s h) by (done || congruence).
      do 2 (split; [done|]). congruence.
  - left. destruct (update_no_player s Hk) as [-> ->]. by repeat split.
Qed.

Lemma steer_keeps s sp :
  Sprite.x (steer s sp) = Sprite.x sp
  ∧ Sprite.y (steer s sp) = Sprite.y sp
  ∧ Sprite.texture (steer s sp) = Sprite.texture sp
  ∧ Sprite.active (steer s sp) = Sprite.active sp.
Proof.
  apply (steer_keeps_prop
           (λ sp0, Sprite.x sp0 = Sprite.x sp ∧ Sprite.y sp0 = Sprite.y sp
                   ∧ Sprite.texture sp0 = Sprite.texture sp
                   ∧ Sprite.active sp0 = Sprite.active sp)); [| | |done].
  - intros f sp0 H. unfold velocity_on. by destruct (Sprite.body sp0).
  - intros r k i sp0 H. unfold play_sprite. destruct (_ && _); [done|].
    destruct r as [[|f fs]|]; [done..|].
    by destruct (Sprite.currentAnim sp0).
  - by intros sp0 H.
Qed.

Lemma tick_trace_cases s sp :
  tick_trace s sp = []
  ∨ (tick_trace s sp = [ws_send (sample_message (myId s) (steer s sp))]
     ∧ moving s = true ∧ is_Some (wsClient s)
     ∧ tick_result s sp = Normal tt).
Proof.
  unfold tick_trace, tick_result, sent.
  destruct (steer_ok s sp); [|by left].
  destruct (moving s); [|by left].
  destruct (wsClient s); [right|by left]. by repeat split.
Qed.

(** X9.  On any scene, [update] writes nothing but the sprite of the
    local participant, and of that sprite neither the position, the
    texture nor whether it is destroyed: every field of the scene, the
    registry and every other sprite are as before; without a local sprite
    nothing happens at all, without a socket nothing is sent; and its
    only call is at most one message on the socket, the object of the
    local id, of the [x] and [y] of the local sprite and of the name of
    the frame it shows, a number or a string, sent only when an arrow key
    is down and [update] returns. *)
Theorem update_touches_local_only s :
  same_fields s (final (update s))
  ∧ players (final (update s)) = players s
  ∧ length (sprites (final (update s))) = length (sprites s)
  ∧ (∀ h, players s !! myId s ≠ Some h →
          sprites (final (update s)) !! h = sprites s !! h)
  ∧ (∀ h sp, players s !! myId s = Some h → sprites s !! h = Some sp →
       ∃ sp', sprites (final (update s)) !! h = Some sp'
              ∧ Sprite.x sp' = Sprite.x sp ∧ Sprite.y sp' = Sprite.y sp
              ∧ Sprite.texture sp' = Sprite.texture sp
              ∧ Sprite.active sp' = Sprite.active sp)
  ∧ (players s !! myId s = None →
     final (update s) = s ∧ trace (update s) = [])
  ∧ (wsClient s = None → trace (update s) = [])
  ∧ (trace (update s) = []
     ∨ ∃ sp, local_sprite (final (update s)) = Some sp
             ∧ moving s = true ∧ result (update s) = Normal tt
             ∧ trace (update s)
               = [ws_send
                    (VObj [("id", VStr (myId s)); ("x", Sprite.x sp);
                           ("y", Sprite.y sp);
                           ("frame",
                            match Frame.name (Sprite.frame sp) with
                            | Frame.Index i => VNum i
                            | Frame.Name k => VStr k
                            end)])]).
Proof.
  destruct (update_shape s)
    as [(Hf & Ht & _)|(h & sp & Hk & Hsp & Hb & Hu)].
  - rewrite Hf, Ht. repeat (split; [done|]).
    split; [|split; [done | split; [done | by left]]].
    intros h sp _ Hsp. by exists sp.
  - rewrite Hu. scene_simpl. repeat (split; [done|]).
    split; [apply length_insert|].
    split; [intros h' Hne; apply list_lookup_insert_ne; congruence|].
    split; [|split; [congruence|split]].
    + intros h' sp' Hk' Hsp'. simplify_eq. exists (steer s sp).
      split; [by eapply lookup_insert_sprite | apply steer_keeps].
    + intros Hws. unfold tick_trace, sent. rewrite Hws.
      by destruct (steer_ok s sp), (moving s).
    + destruct (tick_trace_cases s sp) as [->|(-> & Hm & _ & Hr)];
        [by left|right].
      exists (steer s sp). split; [|done]. unfold local_sprite. scene_simpl.
      rewrite Hk. cbn. by eapply lookup_insert_sprite.
Qed.



(** ** What [create] sets up *)


(** What a step leaves alone, on any scene. *)
Lemma step_frame e s :
  myId (final (step e s)) = myId s
  ∧ wsClient (final (step e s)) = wsClient s
  ∧ anims (final (step e s)) = anims s
  ∧ players (final (step e s)) !! myId s = players s !! myId s
  ∧ ((∀ code down, e ≠ keyboard code down) →
       leftKey (final (step e s)) = leftKey s
       ∧ rightKey (final (step e s)) = rightKey s
       ∧ upKey (final (step e s)) = upKey s
       ∧ downKey (final (step e s)) = downKey s).
Proof.
  destruct e as [data|key has get| |code down|h x y vx vy|h f];
    [|cbn [step]..].
  - rewrite step_message. destruct (wsClient s) eqn:Hws; [|done].
    pose proof (within_onmessage data s) as F.
    pose proof (within_fields _ _ _ _ F) as Hf.
    pose proof (within_players _ _ _ _ F (myId s) (or_intror eq_refl)).
    unfold same_fields in Hf. destruct_and!. rewrite Hws in *. by repeat split.
  - unfold modify. scene_simpl. by case_bool_decide.
  - by destruct (update_shape s)
      as [(-> & _)|(h & sp & _ & _ & _ & ->)].
  - repeat (split; [done|]). intros Hne. by destruct (Hne code down).
  - done.
  - done.
Qed.

Lemma booting_empty s :
  booting s →
  anims s = ∅ ∧ players s !! myId s = None
  ∧ leftKey s = None ∧ rightKey s = None ∧ upKey s = None ∧ downKey s = None.
Proof.
  induction 1 as [hostname uuid|s e _ (IH1 & IH2 & IH3 & IH4 & IH5 & IH6)].
  - by rewrite boot_run.
  - destruct (step_frame e s) as (Hid & _ & Ha & Hp & Hk).
    rewrite Hid, Ha, Hp. do 2 (split; [done|]).
    destruct e as [data|key has get| |code down|h x y vx vy|h f];
      try (destruct Hk as (-> & -> & -> & ->); done).
    cbn [step]. unfold modify. scene_simpl. by rewrite IH3, IH4, IH5, IH6.
Qed.





(** ** The animation after a tick *)











(** ** Sprites with a loaded texture are kept *)

Lemma valid_handle_insert s h sp sp' h' :
  sprites s !! h = Some sp → Sprite.texture sp' = Sprite.texture sp →
  valid_handle (set_sprites (<[h := sp']> (sprites s)) s) h'
  = valid_handle s h'.
Proof.
  intros Hsp Ht. unfold valid_handle. scene_simpl.
  destruct (decide (h = h')) as [<-|Hne].
  - erewrite lookup_insert_sprite by done. by rewrite Hsp, Ht.
  - by rewrite list_lookup_insert_ne.
Qed.

Lemma valid_handle_alter s f h h' :
  (∀ sp, Sprite.texture (f sp) = Sprite.texture sp) →
  valid_handle (set_sprites (alter f h (sprites s)) s) h' = valid_handle s h'.
Proof.
  intros Hf. unfold valid_handle. scene_simpl.
  destruct (decide (h = h')) as [<-|Hne].
  - rewrite list_lookup_alter_eq. destruct (sprites s !! h); [|done].
    cbn. by rewrite Hf.
  - by rewrite list_lookup_alter_ne.
Qed.

Lemma all_valid_ext s s' :
  players s' = players s → (∀ h, valid_handle s' h = valid_handle s h) →
  all_valid s → all_valid s'.
Proof.
  intros Hp Hv H id h Hid. rewrite Hp in Hid. rewrite Hv. by eapply H.
Qed.

Lemma all_valid_created k x y fr s :
  sheet_loaded s → all_valid s → all_valid (created k x y fr s).
Proof.
  intros Hl Hv id h. unfold created, valid_handle. scene_simpl.
  rewrite lookup_insert. case_decide.
  - intros [= <-]. rewrite list_lookup_middle by done. cbn.
    by apply negb_true_iff, String.eqb_neq.
  - intros Hid. specialize (Hv id h Hid). unfold valid_handle in Hv. cbn in Hv.
    destruct (sprites s !! h) as [sp|] eqn:Hsp; [|done].
    by rewrite (lookup_app_l_Some _ _ _ _ Hsp).
Qed.

(** The loop body on a registry of valid sprites: nothing is destroyed
    and every id keeps its sprite. *)
Lemma entry_valid s0 pc k s :
  sheet_loaded s ∧ all_valid s ∧ players s0 ⊆ players s →
  (sheet_loaded (final (onmessage_entry pc k s))
   ∧ all_valid (final (onmessage_entry pc k s))
   ∧ players s0 ⊆ players (final (onmessage_entry pc k s)))
  ∧ ∀ e, e ∈ trace (onmessage_entry pc k s) → ∀ h, e ≠ sprite_destroy h.
Proof.
  intros (Hl & Hv & Hsub).
  destruct (String.eqb k (myId s)) eqn:Hme.
  { rewrite entry_local by done. split; [done|]. by intros e ?%elem_of_nil. }
  destruct (nullish (get_prop pc k)) eqn:Hc.
  { rewrite entry_nullish by done. split; [done|]. by intros e ?%elem_of_nil. }
  rewrite entry_known_eq by done. unfold entry_known.
  destruct (players s !! k) as [h|] eqn:Hk.
  - pose proof (Hv k h Hk) as Hh. unfold valid_handle in Hh. cbn in Hh.
    destruct (sprites s !! h) as [sp|] eqn:Hsp; [|done].
    apply negb_true_iff in Hh. rewrite Hh. scene_simpl. unfold updated.
    split; [split; [exact Hl|split; [|exact Hsub]]|].
    + apply (all_valid_ext s); [reflexivity| |exact Hv].
      intros h'. by eapply valid_handle_insert.
    + intros e He h'.
      repeat (apply elem_of_cons in He as [->|He]; [done|]).
      by apply elem_of_nil in He.
  - destruct (inherited k).
    { split; [done|]. by intros e ?%elem_of_nil. }
    scene_simpl. split; [split; [exact Hl|split]|].
    + by apply all_valid_created.
    + unfold created. scene_simpl. etrans; [done|].
      by apply insert_subseteq.
    + intros e ->%list_elem_of_singleton h'. done.
Qed.

Lemma onmessage_valid s0 data s :
  sheet_loaded s ∧ all_valid s ∧ players s0 ⊆ players s →
  (sheet_loaded (final (onmessage data s))
   ∧ all_valid (final (onmessage data s))
   ∧ players s0 ⊆ players (final (onmessage data s)))
  ∧ ∀ e, e ∈ trace (onmessage data s) → ∀ h, e ≠ sprite_destroy h.
Proof.
  intros H. destruct data as [|v].
  { split; [done|]. by intros e ?%elem_of_nil. }
  rewrite onmessage_JSON. destruct (nullish v).
  { split; [done|]. by intros e ?%elem_of_nil. }
  apply (for_of_invariant
           (λ s', sheet_loaded s' ∧ all_valid s' ∧ players s0 ⊆ players s')
           (λ e, ∀ h, e ≠ sprite_destroy h)); [|done].
  intros k s' _. apply entry_valid.
Qed.

Lemma move_body_texture x y vx vy sp :
  Sprite.texture (move_body x y vx vy sp) = Sprite.texture sp.
Proof. unfold move_body. by destruct (Sprite.body sp). Qed.

Lemma next_frame_texture f sp :
  Sprite.texture (next_frame f sp) = Sprite.texture sp.
Proof. unfold next_frame. by destruct (Sprite.isPlaying sp). Qed.

Lemma step_valid s0 e s :
  sheet_loaded s ∧ all_valid s ∧ players s0 ⊆ players s →
  (sheet_loaded (final (step e s)) ∧ all_valid (final (step e s))
   ∧ players s0 ⊆ players (final (step e s)))
  ∧ ∀ ef, ef ∈ trace (step e s) → ∀ h, ef ≠ sprite_destroy h.
Proof.
  intros H. pose proof H as (Hl & Hv & Hsub).
  destruct e as [data|key has get| |code down|h x y vx vy|h f];
    [|cbn [step]..].
  - rewrite step_message. destruct (wsClient s).
    + by apply onmessage_valid.
    + split; [done|]. by intros e ?%elem_of_nil.
  - unfold modify. scene_simpl. split; [|by intros e ?%elem_of_nil].
    case_bool_decide; [|done]. split; [|done].
    unfold sheet_loaded, player_texture in *. scene_simpl.
    rewrite lookup_insert. by case_decide; simplify_eq.
  - destruct (update_shape s) as [(Hf & Ht & _)|(h & sp & Hk & Hsp & Hb & Hu)].
    + rewrite Hf, Ht. split; [done|]. by intros e ?%elem_of_nil.
    + rewrite Hu. scene_simpl. split; [split; [exact Hl|split; [|exact Hsub]]|].
      * apply (all_valid_ext s); [reflexivity| |exact Hv]. intros h'.
        eapply valid_handle_insert; [done|]. apply steer_keeps.
      * intros e He h'. destruct (tick_trace_cases s sp) as [Hs|[Hs _]];
          rewrite Hs in He; [by apply elem_of_nil in He|].
        by apply list_elem_of_singleton in He as ->.
  - split; [done|]. by intros e ?%elem_of_nil.
  - unfold modify. scene_simpl. split; [|by intros e ?%elem_of_nil].
    split; [exact Hl|]. split; [|exact Hsub].
    apply (all_valid_ext s); [reflexivity| |exact Hv]. intros h'.
    apply valid_handle_alter. apply move_body_texture.
  - unfold modify. scene_simpl. split; [|by intros e ?%elem_of_nil].
    split; [exact Hl|]. split; [|exact Hsub].
    apply (all_valid_ext s); [reflexivity| |exact Hv]. intros h'.
    apply valid_handle_alter. apply next_frame_texture.
Qed.

Lemma run_valid s0 evs : ∀ s,
  sheet_loaded s ∧ all_valid s ∧ players s0 ⊆ players s →
  (sheet_loaded (run evs s).1 ∧ all_valid (run evs s).1
   ∧ players s0 ⊆ players (run evs s).1)
  ∧ ∀ ef, ef ∈ (run evs s).2 → ∀ h, ef ≠ sprite_destroy h.
Proof.
  induction evs as [|e evs IH]; intros s H.
  - split; [done|]. by intros e ?%elem_of_nil.
  - cbn [run]. destruct (step_valid s0 e s H) as [H1 H2].
    destruct (step e s) as [s1 t1 r1]. cbn [final trace] in *.
    destruct (IH s1 H1) as [H3 H4]. destruct (run evs s1) as [s2 t2].
    cbn [fst snd] in *. split; [done|].
    intros ef [He|He]%elem_of_app; eauto.
Qed.

(** X13.  Once the sprite sheet is loaded and every sprite of the
    registry shows a loaded texture, this stays so whatever events
    follow: no sprite is ever destroyed, and every participant keeps the
    sprite it has. *)
Theorem loaded_sprites_kept s evs :
  sheet_loaded s → all_valid s →
  sheet_loaded (run evs s).1
  ∧ all_valid (run evs s).1
  ∧ (∀ id h, players s !! id = Some h → players (run evs s).1 !! id = Some h)
  ∧ ∀ e h, e ∈ (run evs s).2 → e ≠ sprite_destroy h.
Proof.
  intros Hl Hv. destruct (run_valid s evs s) as [(H1 & H2 & H3) H4]; [done|].
  do 2 (split; [done|]). split; [|by eauto].
  intros id h Hid. by eapply lookup_weaken.
Qed.

Lemma loaded_sprites_kept_example :
  players
    (run [message (JSON (table_json [("A", coords 1 2 3);
                                     ("B", coords 4 5 6)])); tick]
         scene_CA).1 !! "A" = Some 1.
Proof.
  destruct (loaded_sprites_kept scene_CA
              [message (JSON (table_json [("A", coords 1 2 3);
                                          ("B", coords 4 5 6)])); tick])
    as (_ & _ & H & _).
  - intros H. vm_compute in H. discriminate H.
  - apply (bool_decide_unpack _). vm_compute. reflexivity.
  - apply H. vm_compute. reflexivity.
Defined.

(** ** The active sprites are the registered ones *)

Lemma no_orphans_insert s h sp sp' :
  sprites s !! h = Some sp → Sprite.active sp' = Sprite.active sp →
  no_orphans s → no_orphans (set_sprites (<[h := sp']> (sprites s)) s).
Proof.
  intros Hsp Ha H h' sp1. scene_simpl. destruct (decide (h = h')) as [<-|Hne].
  - erewrite lookup_insert_sprite by done. intros [= <-]. rewrite Ha.
    by apply H.
  - rewrite list_lookup_insert_ne by done. apply H.
Qed.

Lemma no_orphans_alter s f h :
  (∀ sp, Sprite.active (f sp) = Sprite.active sp) →
  no_orphans s → no_orphans (set_sprites (alter f h (sprites s)) s).
Proof.
  intros Hf H h' sp1. scene_simpl. destruct (decide (h = h')) as [<-|Hne].
  - rewrite list_lookup_alter_eq.
    destruct (sprites s !! h) as [sp|] eqn:Hsp; [|done]. cbn.
    intros [= <-]. rewrite Hf. by apply H.
  - rewrite list_lookup_alter_ne by done. apply H.
Qed.

Lemma no_orphans_created k x y fr s :
  registry_ok s → players s !! k = None →
  no_orphans s → no_orphans (created k x y fr s).
Proof.
  intros Hok Hk H h sp. unfold created. scene_simpl. intros Hsp.
  destruct (decide (h = length (sprites s))) as [->|Hne].
  - rewrite list_lookup_middle in Hsp by done. injection Hsp as <-.
    split; [|done]. intros _. exists k. by rewrite lookup_insert_eq.
  - assert (Hlt : h < length (sprites s)).
    { apply lookup_lt_Some in Hsp. rewrite length_app in Hsp. cbn in Hsp. lia. }
    rewrite lookup_app_l in Hsp by done. rewrite (H h sp Hsp).
    split; intros [id Hid]; exists id.
    + rewrite lookup_insert_ne; [done|]. intros <-. congruence.
    + rewrite lookup_insert in Hid. case_decide; [|done]. simplify_eq.
Qed.

Lemma no_orphans_replaced k x y fr h sp s :
  registry_ok s → registry_inj s →
  players s !! k = Some h → sprites s !! h = Some sp →
  no_orphans s → no_orphans (created k x y fr (destroyed h sp s)).
Proof.
  intros Hok Hinj Hk Hh H h' sp'. unfold created, destroyed. scene_simpl.
  rewrite length_insert. intros Hsp.
  assert (Hlen : h < length (sprites s)) by by eapply lookup_lt_Some.
  destruct (decide (h' = length (sprites s))) as [->|Hne].
  - rewrite list_lookup_middle in Hsp by by rewrite length_insert.
    injection Hsp as <-. split; [|done]. intros _. exists k.
    by rewrite lookup_insert_eq.
  - assert (Hlt : h' < length (sprites s)).
    { apply lookup_lt_Some in Hsp.
      rewrite length_app, length_insert in Hsp. cbn in Hsp. lia. }
    rewrite lookup_app_l in Hsp by by rewrite length_insert.
    destruct (decide (h = h')) as [<-|Hhh].
    + rewrite list_lookup_insert_eq in Hsp by done. injection Hsp as <-.
      split; [done|]. intros [id Hid]. rewrite lookup_insert in Hid.
      exfalso. case_decide as Hkid.
      * injection Hid as Hid. lia.
      * apply Hkid. by eapply Hinj.
    + rewrite list_lookup_insert_ne in Hsp by done. rewrite (H h' sp' Hsp).
      split; intros [id Hid]; exists id.
      * rewrite lookup_insert_ne; [done|]. intros <-. congruence.
      * rewrite lookup_insert in Hid. case_decide; [|done]. simplify_eq.
Qed.

Lemma entry_no_orphans pc k s :
  scene_ok s ∧ no_orphans s →
  scene_ok (final (onmessage_entry pc k s))
  ∧ no_orphans (final (onmessage_entry pc k s)).
Proof.
  intros [Hs H]. pose proof Hs as (Hok & Hinj & _).
  split; [eapply scene_ok_within; [by apply (within_entry (λ _, True))|done]|].
  destruct (String.eqb k (myId s)) eqn:Hme; [by rewrite entry_local|].
  destruct (nullish (get_prop pc k)) eqn:Hc; [by rewrite entry_nullish|].
  rewrite entry_known_eq by done. unfold entry_known.
  destruct (players s !! k) as [h|] eqn:Hk.
  - destruct (sprites s !! h) as [sp|] eqn:Hsp; [|done].
    destruct (String.eqb _ "__MISSING"); scene_simpl.
    + by apply no_orphans_replaced.
    + unfold updated. by eapply no_orphans_insert.
  - destruct (inherited k); [done|]. scene_simpl.
    by apply no_orphans_created.
Qed.

Lemma onmessage_no_orphans data s :
  scene_ok s ∧ no_orphans s →
  scene_ok (final (onmessage data s)) ∧ no_orphans (final (onmessage data s)).
Proof.
  intros H. destruct data as [|v]; [done|].
  rewrite onmessage_JSON. destruct (nullish v); [done|].
  apply (for_of_invariant (λ s', scene_ok s' ∧ no_orphans s')
           (λ _, True)); [|done].
  intros k s' _ H'. split; [by apply entry_no_orphans|done].
Qed.

Lemma move_body_active x y vx vy sp :
  Sprite.active (move_body x y vx vy sp) = Sprite.active sp.
Proof. unfold move_body. by destruct (Sprite.body sp). Qed.

Lemma next_frame_active f sp :
  Sprite.active (next_frame f sp) = Sprite.active sp.
Proof. unfold next_frame. by destruct (Sprite.isPlaying sp). Qed.

Lemma step_no_orphans e s :
  scene_ok s → no_orphans s → no_orphans (final (step e s)).
Proof.
  intros Hs H.
  destruct e as [data|key has get| |code down|h x y vx vy|h f];
    [|cbn [step]..].
  - rewrite step_message. destruct (wsClient s); [|done].
    by apply onmessage_no_orphans.
  - unfold modify. scene_simpl. by case_bool_decide.
  - destruct (update_shape s) as [(-> & _)|(h & sp & Hk & Hsp & Hb & ->)];
      [done|].
    scene_simpl. eapply no_orphans_insert; [done| |done]. apply steer_keeps.
  - done.
  - apply no_orphans_alter; [|done]. apply move_body_active.
  - apply no_orphans_alter; [|done]. apply next_frame_active.
Qed.

Lemma create_no_orphans s :
  registry_ok s → players s !! myId s = None →
  no_orphans s → no_orphans (final (create s)).
Proof.
  intros Hok Hk H. destruct (create_run s) as [a ->]. scene_simpl.
  intros h sp. scene_simpl. intros Hsp.
  destruct (decide (h = length (sprites s))) as [->|Hne].
  - rewrite list_lookup_middle in Hsp by done. injection Hsp as <-.
    split; [|done]. intros _. exists (myId s). by rewrite lookup_insert_eq.
  - assert (Hlt : h < length (sprites s)).
    { apply lookup_lt_Some in Hsp. rewrite length_app in Hsp. cbn in Hsp. lia. }
    rewrite lookup_app_l in Hsp by done. rewrite (H h sp Hsp).
    split; intros [id Hid]; exists id.
    + rewrite lookup_insert_ne; [done|]. intros <-. congruence.
    + rewrite lookup_insert in Hid. case_decide; [|done]. simplify_eq.
Qed.

Lemma booting_no_orphans s : booting s → no_orphans s.
Proof.
  induction 1 as [hostname uuid|s e Hb IH].
  - rewrite boot_run. by intros h sp ?.
  - apply step_no_orphans; [|done]. by apply booting_ok.
Qed.

Lemma running_no_orphans s : running s → no_orphans s.
Proof.
  induction 1 as [s Hb|s e Hr IH].
  - apply create_no_orphans.
    + by apply booting_ok.
    + by apply booting_empty.
    + by apply booting_no_orphans.
  - apply step_no_orphans; [|done]. by apply running_ok.
Qed.

(** X14.  In every scene of a session the sprites that are not destroyed
    are exactly the sprites of the registry: a sprite that was replaced
    is destroyed and no id refers to it, and no sprite is left on the
    scene without a participant. *)
Theorem active_iff_registered s h sp :
  in_session s → sprites s !! h = Some sp →
  Sprite.active sp = true ↔ ∃ id, players s !! id = Some h.
Proof.
  intros [Hs|Hs] Hsp.
  - by apply (booting_no_orphans s Hs).
  - by apply (running_no_orphans s Hs).
Qed.

Lemma active_iff_registered_example :
  ∃ sp, sprites scene_CA !! 1 = Some sp ∧ Sprite.active sp = true.
Proof.
  eexists. split; [vm_compute; reflexivity|].
  eapply (active_iff_registered scene_CA 1).
  - right. apply session_running.
  - vm_compute. reflexivity.
  - exists "A". vm_compute. reflexivity.
Defined.

(** ** A tick and a message do not interfere *)

Lemma entry_known_patch k x y fr s h u :
  h < length (sprites s) → players s !! k ≠ Some h →
  entry_known k x y fr (set_sprites (<[h := u]> (sprites s)) s)
  = patched h u (entry_known k x y fr s).
Proof.
  intros Hlt Hk. unfold entry_known, patched. scene_simpl.
  destruct (players s !! k) as [h'|] eqn:Hk'.
  - assert (h ≠ h') as Hne by congruence.
    rewrite list_lookup_insert_ne by done.
    destruct (sprites s !! h') as [sp|] eqn:Hsp; [|done].
    destruct (String.eqb _ "__MISSING"); scene_simpl.
    + unfold created, destroyed, player_texture. scene_simpl.
      rewrite !length_insert, insert_app_l by by rewrite length_insert.
      by rewrite (list_insert_insert_ne _ h h').
    + unfold updated. scene_simpl. by rewrite (list_insert_insert_ne _ h h').
  - destruct (inherited k); [done|]. scene_simpl.
    unfold created, player_texture. scene_simpl.
    by rewrite length_insert, insert_app_l.
Qed.

Lemma entry_patch pc k s h u :
  h < length (sprites s) → (k ≠ myId s → players s !! k ≠ Some h) →
  onmessage_entry pc k (set_sprites (<[h := u]> (sprites s)) s)
  = patched h u (onmessage_entry pc k s).
Proof.
  intros Hlt Hk. destruct (String.eqb k (myId s)) eqn:Hme.
  { by rewrite !entry_local. }
  destruct (nullish (get_prop pc k)) eqn:Hc.
  { by rewrite !entry_nullish. }
  rewrite !entry_known_eq by done. apply entry_known_patch; [done|].
  by apply Hk, eqb_myId.
Qed.

Lemma for_of_patch pc h u ks : ∀ s,
  registry_ok s → registry_inj s → players s !! myId s = Some h →
  for_of ks (onmessage_entry pc) (set_sprites (<[h := u]> (sprites s)) s)
  = patched h u (for_of ks (onmessage_entry pc) s).
Proof.
  induction ks as [|k ks IH]; intros s Hok Hinj Hh; [done|].
  cbn [for_of].
  assert (Hlt : h < length (sprites s)) by by apply Hok in Hh.
  assert (Hkh : k ≠ myId s → players s !! k ≠ Some h).
  { intros Hne Hk. apply Hne. by eapply Hinj. }
  pose proof (entry_patch pc k s h u Hlt Hkh) as He.
  pose proof (within_entry (λ _, True) pc k s I) as F.
  destruct (onmessage_entry pc k s) as [s1 t1 [[]|e]] eqn:E;
    unfold patched in He; cbn [final trace result] in *.
  - rewrite (bind_run _ _ _ _ _ _ E), (bind_run _ _ _ _ _ _ He).
    rewrite IH.
    + unfold patched, prepend. by scene_simpl.
    + by apply (within_ok _ _ _ _ F).
    + by apply (within_inj _ _ _ _ F).
    + assert (Hid : myId s1 = myId s) by apply F. rewrite Hid.
      rewrite (within_players _ _ _ _ F); [done | by right].
  - by rewrite (bind_throws _ _ _ _ _ _ E), (bind_throws _ _ _ _ _ _ He).
Qed.

Lemma onmessage_patch data h u s :
  registry_ok s → registry_inj s → players s !! myId s = Some h →
  onmessage data (set_sprites (<[h := u]> (sprites s)) s)
  = patched h u (onmessage data s).
Proof.
  intros Hok Hinj Hh. destruct data as [|v]; [done|].
  rewrite !onmessage_JSON. destruct (nullish v); [done|].
  by apply for_of_patch.
Qed.

Lemma steer_fields s s' sp :
  same_fields s s' →
  steer s' sp = steer s sp ∧ tick_trace s' sp = tick_trace s sp
  ∧ tick_result s' sp = tick_result s sp.
Proof.
  unfold same_fields. intros H. destruct_and!.
  unfold tick_trace, tick_result, steer_ok, steer, steered, settle, vertical,
    horizontal, sent, moving.
  by repeat match goal with H : _ s' = _ s |- _ => rewrite H; clear H end.
Qed.

(** X15.  In the playing phase a tick and a received message do not
    interfere: whichever is handled first, the scene afterwards is the
    same, and each of the two makes the calls it makes when it is handled
    alone. *)
Theorem tick_message_commute s data :
  running s →
  (run [tick; message data] s).1 = (run [message data; tick] s).1
  ∧ (run [tick; message data] s).2
    = trace (step tick s) ++ trace (step (message data) s)
  ∧ (run [message data; tick] s).2
    = trace (step (message data) s) ++ trace (step tick s).
Proof.
  intros Hs. pose proof (running_step s (message data) Hs) as Hs'.
  destruct (running_ok s Hs) as ((Hok & Hinj & _) & [ws Hws] & _).
  destruct (update_in_play s Hs) as (h & sp & _ & Hk & Hsp & _ & _ & Hu).
  destruct (update_in_play _ Hs') as (h' & sp' & _ & Hk' & Hsp' & _ & _ & Hu').
  assert (Em : step (message data) s = onmessage data s)
    by by rewrite step_message, Hws.
  assert (Em' : step (message data)
                  (set_sprites (<[h := steer s sp]> (sprites s)) s)
                = patched h (steer s sp) (onmessage data s)).
  { rewrite step_message. scene_simpl. rewrite Hws.
    by apply onmessage_patch. }
  rewrite Em in *. pose proof (within_onmessage data s) as F.
  assert (Hid : myId (final (onmessage data s)) = myId s) by apply F.
  rewrite Hid, (within_players _ _ _ _ F) in Hk' by by right.
  assert (h' = h) as -> by congruence.
  rewrite (within_sprites _ _ _ _ F) in Hsp';
    [|by apply Hok in Hk
     |intros k _ Hne Hk1; apply Hne; by eapply Hinj].
  assert (sp' = sp) as -> by congruence.
  destruct (steer_fields s _ sp (within_fields _ _ _ _ F))
    as (Hst & Htr & Hre).
  rewrite Hst, Htr, Hre in Hu'.
  assert (Et : step tick s = update s) by done.
  assert (Et' : step tick (final (onmessage data s))
                = update (final (onmessage data s))) by done.
  cbn [run]. rewrite Et, Hu, Em', Em. unfold patched.
  destruct (onmessage data s) as [s1 t1 r1]. cbn [final trace result] in *.
  rewrite Et', Hu'. cbn [fst snd]. by rewrite !app_nil_r.
Qed.

Lemma tick_message_commute_example :
  (run [tick; message (JSON (table_json [("B", coords 4 5 6)]))]
       scene_C_left).1
  = (run [message (JSON (table_json [("B", coords 4 5 6)])); tick]
         scene_C_left).1.
Proof.
  apply (tick_message_commute scene_C_left). apply session_running.
Defined.

(** ** A sprite made before the sheet was loaded *)

Lemma entry_known_missing k x y fr s h sp :
  players s !! k = Some h → sprites s !! h = Some sp →
  Texture.key (Sprite.texture sp) = "__MISSING" →
  entry_known k x y fr s
  = Outcome (created k x y fr (destroyed h sp s))
            [sprite_destroy h; add_sprite x y "player" fr (length (sprites s))]
            (Normal tt).
Proof. intros Hk Hsp Hm. unfold entry_known. by rewrite Hk, Hsp, Hm. Qed.

Lemma for_of_replaces pc l1 k l2 s h sp :
  registry_ok s → registry_inj s → NoDup (l1 ++ k :: l2) →
  k ≠ myId s → nullish (get_prop pc k) = false →
  players s !! k = Some h → sprites s !! h = Some sp →
  Texture.key (Sprite.texture sp) = "__MISSING" →
  result (for_of (l1 ++ k :: l2) (onmessage_entry pc) s) = Normal tt →
  sprites (final (for_of (l1 ++ k :: l2) (onmessage_entry pc) s)) !! h
  = Some (Sprite.with_active false sp)
  ∧ sprite_destroy h ∈ trace (for_of (l1 ++ k :: l2) (onmessage_entry pc) s)
  ∧ ∃ h',
      players (final (for_of (l1 ++ k :: l2) (onmessage_entry pc) s)) !! k
      = Some h'
      ∧ length (sprites s) ≤ h'
      ∧ sprites (final (for_of (l1 ++ k :: l2) (onmessage_entry pc) s)) !! h'
        = Some (new_sprite (get_prop (get_prop pc k) "x")
                  (get_prop (get_prop pc k) "y") (player_texture s)
                  (get_prop (get_prop pc k) "frame") None).
Proof.
  intros Hok Hinj Hnd Hne Hc Hk Hsp Hm.
  apply NoDup_app in Hnd as (_ & Hk1 & [Hk2 _]%NoDup_cons).
  rewrite for_of_app. cbn [for_of].
  pose proof (within_for_of (λ k', k' ∈ l1) pc l1 s (λ _ H, H)) as F1.
  destruct (for_of l1 (onmessage_entry pc) s) as [s1 t1 [[]|e1]] eqn:E1;
    cbn [final trace] in F1.
  2: by rewrite (bind_throws _ _ _ _ _ _ E1).
  rewrite (bind_run _ _ _ _ _ _ E1).
  destruct (within_untouched _ _ _ _ k h F1 Hok Hinj Hk) as (Hk' & Hsp' & _).
  { left. intros Hin. by apply (Hk1 k Hin); left. }
  rewrite Hsp in Hsp'.
  assert (Hid : myId s1 = myId s) by apply F1.
  pose proof (within_ok _ _ _ _ F1 Hok) as Hok1.
  pose proof (within_inj _ _ _ _ F1 Hok Hinj) as Hinj1.
  assert (Hentry : onmessage_entry pc k s1
                   = Outcome (created k (get_prop (get_prop pc k) "x")
                                (get_prop (get_prop pc k) "y")
                                (get_prop (get_prop pc k) "frame")
                                (destroyed h sp s1))
                       [sprite_destroy h;
                        add_sprite (get_prop (get_prop pc k) "x")
                          (get_prop (get_prop pc k) "y") "player"
                          (get_prop (get_prop pc k) "frame")
                          (length (sprites s1))]
                       (Normal tt)).
  { rewrite entry_known_eq by (done || apply eqb_myId; by rewrite Hid).
    by apply entry_known_missing. }
  pose proof (within_entry (λ k', k' = k) pc k s1 eq_refl) as F2.
  rewrite Hentry in F2. cbn [final trace] in F2.
  rewrite (bind_run _ _ _ _ _ _ Hentry).
  set (s2 := created _ _ _ _ _) in *.
  assert (Hlt : h < length (sprites s1)) by by eapply lookup_lt_Some.
  assert (Hk2' : players s2 !! k = Some (length (sprites s1))).
  { unfold s2, created, destroyed. scene_simpl.
    by rewrite lookup_insert_eq, length_insert. }
  assert (Hh2 : sprites s2 !! h = Some (Sprite.with_active false sp)).
  { unfold s2, created, destroyed. scene_simpl.
    rewrite lookup_app_l by by rewrite length_insert.
    by apply list_lookup_insert_eq. }
  assert (Hnew : sprites s2 !! length (sprites s1)
                 = Some (new_sprite (get_prop (get_prop pc k) "x")
                           (get_prop (get_prop pc k) "y") (player_texture s)
                           (get_prop (get_prop pc k) "frame") None)).
  { unfold s2, created, destroyed. scene_simpl.
    rewrite list_lookup_middle by by rewrite length_insert.
    by rewrite <-(player_texture_within _ _ _ _ F1). }
  pose proof (within_for_of (λ k', k' ∈ l2) pc l2 s2 (λ _ H, H)) as F3.
  pose proof (within_ok _ _ _ _ F2 Hok1) as Hok2.
  pose proof (within_inj _ _ _ _ F2 Hok1 Hinj1) as Hinj2.
  destruct (within_untouched _ _ _ _ k _ F3 Hok2 Hinj2 Hk2')
    as (Hk3 & Hsp3 & _); [by left|].
  assert (Hh3 : sprites (final (for_of l2 (onmessage_entry pc) s2)) !! h
                = sprites s2 !! h).
  { apply (within_sprites _ _ _ _ F3).
    - apply lookup_lt_Some in Hh2. done.
    - intros k' Hin _ Hk'2. unfold s2, created, destroyed in Hk'2.
      cbn [players set_players set_sprites] in Hk'2.
      rewrite lookup_insert in Hk'2. case_decide as Hkk.
      + injection Hk'2 as Heq. rewrite length_insert in Heq. lia.
      + apply Hkk. by eapply Hinj1. }
  destruct (for_of l2 (onmessage_entry pc) s2) as [s3 t3 r3].
  unfold prepend. cbn [final trace result] in *. intros _.
  split; [congruence|]. split.
  - apply elem_of_app. right. by left.
  - exists (length (sprites s1)). split; [done|].
    split; [apply (within_length _ _ _ _ F1) | congruence].
Qed.

(** X16.  A sprite of the registry that shows the missing texture is
    replaced by the next well-formed table that names its id: the old
    sprite is destroyed and stays in the store, destroyed, and the id gets
    a sprite made after it, at the sample, with the texture the key
    ["player"] has by then. *)
Theorem missing_sprite_replaced s v table id c h sp :
  decode_table v = Some table →
  (∀ id, id ∈ table.*1 → id ≠ myId s → inherited id = false) →
  registry_ok s → registry_inj s →
  (id, c) ∈ table → id ≠ myId s →
  players s !! id = Some h → sprites s !! h = Some sp →
  Texture.key (Sprite.texture sp) = "__MISSING" →
  sprites (final (onmessage (JSON v) s)) !! h
  = Some (Sprite.with_active false sp)
  ∧ sprite_destroy h ∈ trace (onmessage (JSON v) s)
  ∧ ∃ h',
      players (final (onmessage (JSON v) s)) !! id = Some h'
      ∧ length (sprites s) ≤ h'
      ∧ sprites (final (onmessage (JSON v) s)) !! h'
        = Some (new_sprite (VNum (ICoords.x c)) (VNum (ICoords.y c))
                  (player_texture s) (VNum (ICoords.frame c)) None).
Proof.
  intros Hdec Hinh Hok Hinj Hin Hne Hk Hsp Hm.
  destruct (reconcile_refines s v table Hdec Hinh Hok) as (_ & Hres & _).
  apply decode_table_Some in Hdec as (props & -> & Hnd & Hdec & Hkeys).
  destruct (decode_entries_elem _ _ _ _ Hdec Hin) as (e & He & Hc).
  destruct (decode_sample_Some _ _ Hc) as (Hnull & Hx & Hy & Hf).
  assert (Hget : get_prop (VObj props) id = e).
  { unfold get_prop. cbn [own_props]. by apply own_lookup_elem. }
  assert (id ∈ props.*1) as (l1 & l2 & Hsplit)%list_elem_of_split.
  { apply list_elem_of_fmap. by exists (id, e). }
  rewrite onmessage_JSON in *. cbn [nullish own_props] in *.
  rewrite Hsplit in *. rewrite <-Hx, <-Hy, <-Hf, <-Hget.
  apply for_of_replaces; try done. by rewrite Hget.
Qed.

Lemma missing_sprite_replaced_example :
  sprite_destroy 0
  ∈ trace (onmessage (JSON (table_json [("A", coords 1 2 3)])) scene_C_early).
Proof.
  eapply (missing_sprite_replaced scene_C_early
            (table_json [("A", coords 1 2 3)]) [("A", coords 1 2 3)]
            "A" (coords 1 2 3) 0).
  - vm_compute. reflexivity.
  - intros id Hin _.
    repeat (apply elem_of_cons in Hin as [->|Hin]; [reflexivity|]).
    by apply elem_of_nil in Hin.
  - apply (running_ok scene_C_early), session_running.
  - apply (running_ok scene_C_early), session_running.
  - apply elem_of_cons. by left.
  - intros H. vm_compute in H. discriminate H.
  - vm_compute. reflexivity.
  - vm_compute. reflexivity.
  - vm_compute. reflexivity.
Defined.

(** ** The socket of a session *)

Lemma step_host e s :
  HOST (final (step e s)) = HOST s.
Proof.
  destruct e as [data|key has get| |code down|h x y vx vy|h f];
    [|cbn [step]..].
  - rewrite step_message. destruct (wsClient s); [|done].
    apply (within_fields _ _ _ _ (within_onmessage data s)).
  - unfold modify. scene_simpl. by case_bool_decide.
  - by destruct (update_shape s)
      as [(-> & _)|(h & sp & _ & _ & _ & ->)].
  - done.
  - done.
  - done.
Qed.

(** X17.  In every scene of a session the scene holds the one socket it
    opened in [init], at the address [ws://HOST:8080] of its own host:
    no handler closes it or opens another. *)
Theorem socket_address s :
  in_session s →
  wsClient s
  = Some (String.append "ws://"
            (String.append (HOST s) (String.append ":" "8080"))).
Proof.
  assert (Hstep : ∀ e s',
            wsClient s'
            = Some (String.append "ws://"
                      (String.append (HOST s') (String.append ":" "8080"))) →
            wsClient (final (step e s'))
            = Some (String.append "ws://"
                      (String.append (HOST (final (step e s')))
                         (String.append ":" "8080")))).
  { intros e s' H. destruct (step_frame e s') as (_ & -> & _).
    by rewrite step_host. }
  assert (Hboot : ∀ s', booting s' →
            wsClient s'
            = Some (String.append "ws://"
                      (String.append (HOST s') (String.append ":" "8080")))).
  { induction 1 as [hostname uuid|s' e _ IH]; [by rewrite boot_run|].
    by apply Hstep. }
  intros [H|H]; [by apply Hboot|].
  induction H as [s Hb|s e _ IH]; [|by apply Hstep].
  apply Hboot in Hb. destruct (create_run s) as [a ->]. by scene_simpl.
Qed.

Lemma socket_address_example :
  wsClient scene_CA = Some "ws://localhost:8080".
Proof. apply (socket_address scene_CA). right. apply session_running. Defined.

(** ** The sprites of the other participants *)

Lemma remote_idle_insert s h sp sp' :
  sprites s !! h = Some sp →
  Sprite.body sp' = Sprite.body sp →
  Sprite.isPlaying sp' = Sprite.isPlaying sp →
  remote_idle s → remote_idle (set_sprites (<[h := sp']> (sprites s)) s).
Proof.
  intros Hsp Hb Hp H id h' sp1 Hid Hne. scene_simpl.
  destruct (decide (h = h')) as [<-|Hhh].
  - erewrite lookup_insert_sprite by done. intros [= <-]. rewrite Hb, Hp.
    by eapply H.
  - rewrite list_lookup_insert_ne by done. by eapply H.
Qed.

Lemma remote_idle_local s h sp' :
  registry_inj s → players s !! myId s = Some h →
  remote_idle s → remote_idle (set_sprites (<[h := sp']> (sprites s)) s).
Proof.
  intros Hinj Hk H id h' sp1 Hid Hne. scene_simpl.
  cbn [players set_sprites] in Hid.
  rewrite list_lookup_insert_ne; [by eapply H|].
  intros <-. apply Hne. by eapply Hinj.
Qed.

Lemma remote_idle_alter s f h :
  (∀ sp, Sprite.body sp = None → Sprite.isPlaying sp = false → f sp = sp) →
  remote_idle s → remote_idle (set_sprites (alter f h (sprites s)) s).
Proof.
  intros Hf H id h' sp1 Hid Hne. scene_simpl.
  cbn [players set_sprites] in Hid.
  destruct (decide (h = h')) as [<-|Hhh].
  - rewrite list_lookup_alter_eq.
    destruct (sprites s !! h) as [sp|] eqn:Hsp; [|done]. cbn.
    destruct (H id h sp Hid Hne Hsp) as [Hb Hp].
    rewrite Hf by done. by intros [= <-].
  - rewrite list_lookup_alter_ne by done. by eapply H.
Qed.

Lemma remote_idle_created k x y fr s :
  registry_ok s → remote_idle s → remote_idle (created k x y fr s).
Proof.
  intros Hok H id h sp. unfold created. scene_simpl.
  rewrite lookup_insert. case_decide.
  - intros [= <-] _. rewrite list_lookup_middle by done. by intros [= <-].
  - intros Hid Hne. rewrite lookup_app_l by by apply Hok in Hid.
    by eapply H.
Qed.

Lemma entry_remote_idle pc k s :
  scene_ok s ∧ remote_idle s →
  scene_ok (final (onmessage_entry pc k s))
  ∧ remote_idle (final (onmessage_entry pc k s)).
Proof.
  intros [Hs H]. pose proof Hs as (Hok & Hinj & _).
  split; [eapply scene_ok_within; [by apply (within_entry (λ _, True))|done]|].
  destruct (String.eqb k (myId s)) eqn:Hme; [by rewrite entry_local|].
  destruct (nullish (get_prop pc k)) eqn:Hc; [by rewrite entry_nullish|].
  rewrite entry_known_eq by done. unfold entry_known.
  destruct (players s !! k) as [h|] eqn:Hk.
  - destruct (sprites s !! h) as [sp|] eqn:Hsp; [|done].
    destruct (String.eqb _ "__MISSING"); scene_simpl.
    + apply remote_idle_created.
      * unfold destroyed, registry_ok in *. scene_simpl.
        by rewrite length_insert.
      * unfold destroyed. by eapply remote_idle_insert.
    + unfold updated. by eapply remote_idle_insert.
  - destruct (inherited k); [done|]. scene_simpl.
    by apply remote_idle_created.
Qed.

Lemma onmessage_remote_idle data s :
  scene_ok s ∧ remote_idle s →
  scene_ok (final (onmessage data s)) ∧ remote_idle (final (onmessage data s)).
Proof.
  intros H. destruct data as [|v]; [done|].
  rewrite onmessage_JSON. destruct (nullish v); [done|].
  apply (for_of_invariant (λ s', scene_ok s' ∧ remote_idle s')
           (λ _, True)); [|done].
  intros k s' _ H'. split; [by apply entry_remote_idle|done].
Qed.

Lemma move_body_idle x y vx vy sp :
  Sprite.body sp = None → move_body x y vx vy sp = sp.
Proof. unfold move_body. by intros ->. Qed.

Lemma next_frame_idle f sp :
  Sprite.isPlaying sp = false → next_frame f sp = sp.
Proof. unfold next_frame. by intros ->. Qed.

Lemma step_remote_idle e s :
  scene_ok s → remote_idle s → remote_idle (final (step e s)).
Proof.
  intros Hs H. pose proof Hs as (Hok & Hinj & _).
  destruct e as [data|key has get| |code down|h x y vx vy|h f];
    [|cbn [step]..].
  - rewrite step_message. destruct (wsClient s); [|done].
    by apply onmessage_remote_idle.
  - unfold modify. scene_simpl. by case_bool_decide.
  - destruct (update_shape s) as [(-> & _)|(h & sp & Hk & Hsp & Hb & ->)];
      [done|].
    scene_simpl. by apply remote_idle_local.
  - done.
  - apply remote_idle_alter; [|done]. intros sp Hb _.
    by apply move_body_idle.
  - apply remote_idle_alter; [|done]. intros sp _ Hp.
    by apply next_frame_idle.
Qed.

Lemma create_remote_idle s :
  registry_ok s → remote_idle s → remote_idle (final (create s)).
Proof.
  intros Hok H. destruct (create_run s) as [a ->]. scene_simpl.
  intros id h sp. scene_simpl. rewrite lookup_insert. case_decide.
  - by intros _ Hne.
  - intros Hid Hne. rewrite lookup_app_l by by apply Hok in Hid.
    by eapply H.
Qed.

Lemma booting_remote_idle s : booting s → remote_idle s.
Proof.
  induction 1 as [hostname uuid|s e Hb IH].
  - rewrite boot_run. by intros id h sp ?.
  - apply step_remote_idle; [|done]. by apply booting_ok.
Qed.

Lemma running_remote_idle s : running s → remote_idle s.
Proof.
  induction 1 as [s Hb|s e Hr IH].
  - apply create_remote_idle; [by apply booting_ok|].
    by apply booting_remote_idle.
  - apply step_remote_idle; [|done]. by apply running_ok.
Qed.

(** X18.  In a session the sprite of another participant has no physics
    body and plays no animation, and only a message changes it: a tick, a
    key, a finished load, a physics step or an animation frame leaves its
    registry entry and the sprite as they are. *)
Theorem remote_sprite_still s e id h sp :
  in_session s →
  players s !! id = Some h → id ≠ myId s → sprites s !! h = Some sp →
  (∀ data, e ≠ message data) →
  Sprite.body sp = None ∧ Sprite.isPlaying sp = false
  ∧ players (final (step e s)) !! id = Some h
  ∧ sprites (final (step e s)) !! h = Some sp.
Proof.
  intros Hs Hid Hne Hsp He.
  assert (remote_idle s) as Hidle.
  { destruct Hs; [by apply booting_remote_idle|by apply running_remote_idle]. }
  destruct (Hidle id h sp Hid Hne Hsp) as [Hb Hp]. do 2 (split; [done|]).
  apply in_session_ok in Hs as [(Hok & Hinj & _) _].
  destruct e as [data|key has get| |code down|h0 x y vx vy|h0 f];
    [by destruct (He data)|cbn [step]..].
  - unfold modify. scene_simpl. by case_bool_decide.
  - destruct (update_shape s) as [(-> & _)|(h0 & sp0 & Hk & _ & _ & ->)];
      [done|].
    scene_simpl. split; [done|]. rewrite list_lookup_insert_ne; [done|].
    intros ->. apply Hne. by eapply Hinj.
  - done.
  - unfold modify. scene_simpl. split; [done|].
    destruct (decide (h0 = h)) as [->|Hhh].
    + rewrite list_lookup_alter_eq, Hsp. cbn. by rewrite move_body_idle.
    + by rewrite list_lookup_alter_ne.
  - unfold modify. scene_simpl. split; [done|].
    destruct (decide (h0 = h)) as [->|Hhh].
    + rewrite list_lookup_alter_eq, Hsp. cbn. by rewrite next_frame_idle.
    + by rewrite list_lookup_alter_ne.
Qed.

Lemma remote_sprite_still_example :
  ∃ sp,
    sprites scene_CA !! 1 = Some sp
    ∧ sprites (final (step (physics 1 7%float 8%float 9%float 9%float)
                        scene_CA)) !! 1
      = Some sp.
Proof.
  eexists. split; [vm_compute; reflexivity|].
  eapply (remote_sprite_still scene_CA
            (physics 1 7%float 8%float 9%float 9%float) "A" 1).
  - right. apply session_running.
  - vm_compute. reflexivity.
  - intros H. vm_compute in H. discriminate H.
  - vm_compute. reflexivity.
  - intros data H. discriminate H.
Defined.

(** X19.  Before [create] the scene is silent and idle: in the loading
    phase no handler sends a message, whatever keys are pressed, and a
    tick changes nothing. *)
Theorem loading_is_silent s e :
  booting s →
  (∀ msg, ws_send msg ∉ trace (step e s))
  ∧ final (step tick s) = s.
Proof.
  intros Hs.
  destruct (booting_empty s Hs) as (_ & Hk & Hl & Hr & Hu & Hd). split.
  - intros msg Hin.
    destruct (step_trace s e _ (or_introl Hs) Hin) as [[h Hh]|(_ & Hm & _)];
      [done|].
    unfold moving in Hm. by rewrite Hl, Hr, Hu, Hd in Hm.
  - cbn [step]. by apply update_no_player.
Qed.

Lemma loading_is_silent_example :
  final (step tick (final (boot "localhost" "C")))
  = final (boot "localhost" "C").
Proof. apply (loading_is_silent _ tick). apply booting_boot. Defined.
